(** * neonctl: the credential lifecycle of [src/auth.ts] and [src/commands/auth.ts]

    A shallow embedding of the two TypeScript modules of the repository:

    - [src/auth.ts]          : [REDIRECT_URI], [DEFAULT_SCOPES], [refreshToken], [auth]
    - [src/commands/auth.ts] : [authFlow], [preserveCredentials], [ensureAuth]

    The code is glue around external collaborators (the OIDC client library,
    the node file system, the identity API, the browser).  The collaborators
    are not reimplemented: pure library functions are fields of the class
    [Platform], and everything the outside world answers during one run (file
    system, network replies, random source, incoming HTTP requests) is a field
    of the record [World], which the program threads through a state and
    exception monad [M].  Every external call leaves an [Event] in the world's
    log, so that "the code does not start a listener" is a statement about
    that log. *)

From Stdlib Require Import String Ascii ZArith NArith List Bool Lia DecimalString DecimalN DecimalPos.
From stdpp Require Import base option list gmap strings.

Local Open Scope Z_scope.
Local Open Scope stdpp_scope.
Local Set Warnings "-register-all".

(** ** JavaScript values *)

Module Js.

(** The values that flow through the code: what [JSON.parse] can produce,
    plus [undefined] for an absent property.  Numbers are restricted to
    integers (time stamps, ports). *)
Inductive val : Type :=
| VUndefined
| VNull
| VBool (b : bool)
| VNum (n : Z)
| VStr (s : string)
| VArr (items : list val)
| VObj (fields : list (string * val)).

(** An object is the list of its own enumerable properties, in insertion
    order (the order [JSON.stringify] and the spread operator follow). *)
Definition obj : Type := list (string * val).

(** JavaScript truthiness, as used by [||], [!] and [if]. *)
Definition truthy (v : val) : bool :=
  match v with
  | VUndefined | VNull => false
  | VBool b => b
  | VNum n => negb (n =? 0)
  | VStr s => negb (String.eqb s "")
  | VArr _ | VObj _ => true
  end.

(** [a || b] *)
Definition or (a b : val) : val := if truthy a then a else b.

(** [v === s] for a string literal [s] *)
Definition is_str (v : val) (s : string) : bool :=
  match v with
  | VStr t => String.eqb t s
  | _ => false
  end.

(** [o.k]: the value of property [k], [undefined] when absent. *)
Fixpoint get (k : string) (o : obj) : val :=
  match o with
  | [] => VUndefined
  | (k', v) :: o' => if String.eqb k' k then v else get k o'
  end.

(** [o.k = v] on an object: an existing property keeps its position, a new
    one goes last. *)
Fixpoint set (k : string) (v : val) (o : obj) : obj :=
  match o with
  | [] => [(k, v)]
  | (k', v') :: o' =>
      if String.eqb k' k then (k, v) :: o' else (k', v') :: set k v o'
  end.

(** [{ ...o, k: v }] *)
Definition spread_with (o : obj) (k : string) (v : val) : obj := set k v o.

(** [s.startsWith(p)] *)
Fixpoint startsWith (p s : string) : bool :=
  match p, s with
  | EmptyString, _ => true
  | String a p', String b s' => Ascii.eqb a b && startsWith p' s'
  | String _ _, EmptyString => false
  end.

(** [s.includes(p)] *)
Fixpoint includes (p s : string) : bool :=
  startsWith p s ||
  match s with
  | EmptyString => false
  | String _ s' => includes p s'
  end.

(** [xs.join(sep)] *)
Fixpoint join (sep : string) (xs : list string) : string :=
  match xs with
  | [] => ""
  | [x] => x
  | x :: xs' => x +:+ sep +:+ join sep xs'
  end.

(** A thrown value.  The code looks at three things only: whether it is an
    [instanceof Error], its [message] and its [code] property (set by node on
    system errors, absent otherwise). *)
Record error : Type := mkError {
  instanceof_Error : bool;
  message : string;
  code : option string;
}.

(** [new Error(msg)] *)
Definition Error (msg : string) : error :=
  {| instanceof_Error := true; message := msg; code := None |}.

End Js.

(** ** The objects of the libraries *)

(** [TokenSet] of openid-client: an object whose properties are the token
    endpoint's response ([access_token], [refresh_token], [expires_at], ...). *)
Definition TokenSet : Type := Js.obj.

(** [tokenSet.access_token] *)
Definition access_token (t : TokenSet) : Js.val := Js.get "access_token" t.

(** The result of [Issuer.discover]: the issuer's metadata. *)
Record Issuer : Type := { issuer_metadata : Js.obj }.

(** The argument of [new issuer.Client({...})]; [redirect_uris] is absent in
    [refreshToken]. *)
Record ClientMetadata : Type := {
  token_endpoint_auth_method : string;
  client_id : string;
  redirect_uris : option (list string);
  response_types : list string;
}.

Record Client : Type := { client_issuer : Issuer; client_metadata : ClientMetadata }.

(** The argument of [client.authorizationUrl({...})]. *)
Record AuthorizationParameters : Type := {
  scope : string;
  state : string;
  code_challenge : string;
  code_challenge_method : string;
}.

(** The [checks] argument of [client.callback(uri, params, checks)]. *)
Record CallbackChecks : Type := {
  check_code_verifier : string;
  check_state : string;
}.

(** What [getApiClient({ apiKey, apiHost })] of [../api.js] is given; the
    client is identified with its configuration. *)
Record ApiClient : Type := { api_apiKey : Js.val; api_apiHost : string }.

Definition getApiClient (apiKey : Js.val) (apiHost : string) : ApiClient :=
  {| api_apiKey := apiKey; api_apiHost := apiHost |}.

(** ** Events: the calls that leave the process *)

Inductive Level : Type := LDebug | LInfo | LError.

Inductive Event : Type :=
| Log (l : Level) (fmt : string) (args : list Js.val)
| Discover (host : string)
| Listen (port : N)
| AuthorizationUrl (c : Client) (p : AuthorizationParameters)
| OpenBrowser (url : string)
| Respond (req : nat) (status : N) (headers : list (string * string)) (body : option string)
| CallbackExchange (req : nat) (c : Client) (redirect_uri : string)
    (params : Js.obj) (checks : CallbackChecks)
| Resolve (t : TokenSet)
| ServerClose
| UnhandledRejection (e : Js.error)
| Refresh (c : Client) (t : TokenSet)
| GetCurrentUserInfo (api : ApiClient)
| WriteFile (path contents : string) (mode : N).

(** ** The world *)

(** A path of the file system holds a readable file, or a file whose read
    fails with a system error ([EACCES], [EISDIR], or [ENOENT] when the file
    disappears between [existsSync] and [readFileSync]). *)
Inductive File : Type :=
| Readable (contents : string)
| Unreadable (e : Js.error).

(** The [request] that the handler of the loopback server is given; [url] is
    [None] when it is [undefined]. *)
Record IncomingMessage : Type := {
  method : string;
  url : option string;
}.

(** What reaches the loopback server: a request, or the settlement of the
    token exchange that the handler of request number [req] awaits. *)
Inductive ServerEvent : Type :=
| Request (request : IncomingMessage)
| Exchanged (req : nat) (reply : Js.error + TokenSet).

(** A network reply list is consumed one reply per call; a call made when the
    list is empty never settles. *)
Record World : Type := mkWorld {
  fs : gmap string File;
  write_fault : string -> option Js.error;
  now : Z;
  ci : bool;
  discover_replies : list (Js.error + Issuer);
  refresh_replies : list (Js.error + TokenSet);
  identity_replies : list (Js.error + string);
  random : nat -> string;
  drawn : nat;
  ephemeral_port : N;
  inbound : list ServerEvent;
  events : list Event;   (* newest first *)
}.

Definition emit (ev : Event) (w : World) : World :=
  mkWorld (fs w) (write_fault w) (now w) (ci w) (discover_replies w)
    (refresh_replies w) (identity_replies w) (random w) (drawn w)
    (ephemeral_port w) (inbound w) (ev :: events w).

Definition emits (evs : list Event) (w : World) : World :=
  mkWorld (fs w) (write_fault w) (now w) (ci w) (discover_replies w)
    (refresh_replies w) (identity_replies w) (random w) (drawn w)
    (ephemeral_port w) (inbound w) (evs ++ events w).

Definition set_fs (f : gmap string File) (w : World) : World :=
  mkWorld f (write_fault w) (now w) (ci w) (discover_replies w)
    (refresh_replies w) (identity_replies w) (random w) (drawn w)
    (ephemeral_port w) (inbound w) (events w).

Definition set_discover_replies (q : list (Js.error + Issuer)) (w : World) : World :=
  mkWorld (fs w) (write_fault w) (now w) (ci w) q
    (refresh_replies w) (identity_replies w) (random w) (drawn w)
    (ephemeral_port w) (inbound w) (events w).

Definition set_refresh_replies (q : list (Js.error + TokenSet)) (w : World) : World :=
  mkWorld (fs w) (write_fault w) (now w) (ci w) (discover_replies w)
    q (identity_replies w) (random w) (drawn w)
    (ephemeral_port w) (inbound w) (events w).

Definition set_identity_replies (q : list (Js.error + string)) (w : World) : World :=
  mkWorld (fs w) (write_fault w) (now w) (ci w) (discover_replies w)
    (refresh_replies w) q (random w) (drawn w)
    (ephemeral_port w) (inbound w) (events w).

Definition set_drawn (n : nat) (w : World) : World :=
  mkWorld (fs w) (write_fault w) (now w) (ci w) (discover_replies w)
    (refresh_replies w) (identity_replies w) (random w) n
    (ephemeral_port w) (inbound w) (events w).

Definition set_inbound (q : list ServerEvent) (w : World) : World :=
  mkWorld (fs w) (write_fault w) (now w) (ci w) (discover_replies w)
    (refresh_replies w) (identity_replies w) (random w) (drawn w)
    (ephemeral_port w) q (events w).

(** ** The monad of the code: state, exceptions, and promises that never settle

    [Pending] is the outcome of an [await] that never gives control back:
    the promise never settles, or the process ends before it does. *)

Inductive Outcome (A : Type) : Type :=
| Returns (a : A)
| Throws (e : Js.error)
| Pending.

Arguments Returns {A} a.
Arguments Throws {A} e.
Arguments Pending {A}.

Definition M (A : Type) : Type := World -> Outcome A * World.

Definition ret {A} (a : A) : M A := fun w => (Returns a, w).

Definition throw {A} (e : Js.error) : M A := fun w => (Throws e, w).

Definition bind {A B} (m : M A) (k : A -> M B) : M B :=
  fun w =>
    match m w with
    | (Returns a, w') => k a w'
    | (Throws e, w') => (Throws e, w')
    | (Pending, w') => (Pending, w')
    end.

(** [try { body } catch (e) { handler }]; an await that never settles is not
    caught. *)
Definition try_catch {A} (body : M A) (handler : Js.error -> M A) : M A :=
  fun w =>
    match body w with
    | (Throws e, w') => handler e w'
    | r => r
    end.

Declare Scope js_scope.
Delimit Scope js_scope with js.
Notation "'do' x <- m ; k" := (bind m (fun x => k))
  (at level 10, x name, m at level 100, k at level 200) : js_scope.
Notation "'run' m ; k" := (bind m (fun _ => k))
  (at level 10, m at level 100, k at level 200) : js_scope.
Local Open Scope js_scope.

(** Awaiting a network reply. *)
Definition await {A} (reply : option (Js.error + A)) : M A :=
  match reply with
  | None => fun w => (Pending, w)
  | Some (inl e) => throw e
  | Some (inr a) => ret a
  end.

Definition tell (ev : Event) : M unit := fun w => (Returns tt, emit ev w).

(** [./log]: [log.debug], [log.info], [log.error] *)
Definition log_debug (fmt : string) (args : list Js.val) : M unit := tell (Log LDebug fmt args).
Definition log_info (fmt : string) (args : list Js.val) : M unit := tell (Log LInfo fmt args).
Definition log_error (fmt : string) (args : list Js.val) : M unit := tell (Log LError fmt args).

(** The character [\n] *)
Definition newline : string := String (ascii_of_nat 10) EmptyString.

(** [`${n}`] for a number *)
Definition decimal (n : N) : string := NilZero.string_of_uint (N.to_uint n).

(** ** The library functions the code calls *)

Class Platform : Type := {
  (** [CREDENTIALS_FILE] of [../config.js] *)
  CREDENTIALS_FILE : string;
  (** [join] of [node:path] *)
  path_join : string -> string -> string;
  (** [JSON.stringify] *)
  JSON_stringify : Js.obj -> string;
  (** [new TokenSet(JSON.parse(contents))]: the thrown [SyntaxError], or the token set *)
  TokenSet_parse : string -> Js.error + TokenSet;
  (** [tokenSet.expired()] at a given time *)
  TokenSet_expired : Z -> TokenSet -> bool;
  (** [createHash('md5').update(s).digest('hex')] *)
  md5_hex : string -> string;
  (** [generators.codeChallenge] *)
  generators_codeChallenge : string -> string;
  (** [client.authorizationUrl] *)
  client_authorizationUrl : Client -> AuthorizationParameters -> string;
  (** [client.callbackParams(request)]: the parameters of the request, or
      the [TypeError] thrown for a request it cannot read them from *)
  client_callbackParams : IncomingMessage -> Js.error + Js.obj;
  (** the contents of [callback.html] *)
  callback_html : string;
  (** what node does with a promise that is rejected and that nobody
      handles: [true] when that ends the process, the default since node 15
      (unless the program installs a handler of its own), [false] when it
      only warns *)
  unhandled_rejection_exits : bool;
}.

(** ** [src/auth.ts] *)

Module Auth.
Section WithPlatform.
Context {P : Platform}.

(** oauth server timeouts *)
Definition SERVER_TIMEOUT : Z := 10000.

(** where to wait for incoming redirect request from oauth server to arrive *)
Definition REDIRECT_URI (port : N) : string :=
  "http://127.0.0.1:" +:+ decimal port +:+ "/callback".

(** These scopes cannot be cancelled, they are always needed. *)
Definition DEFAULT_SCOPES : list string :=
  [ "openid";
    "offline";
    "offline_access";
    "urn:neoncloud:projects:create";
    "urn:neoncloud:projects:read";
    "urn:neoncloud:projects:modify";
    "urn:neoncloud:projects:delete" ].

Record AuthProps : Type := {
  oauthHost : string;
  clientId : string;
}.

(** [await Issuer.discover(host)] *)
Definition Issuer_discover (host : string) : M Issuer :=
  fun w =>
    let w1 := emit (Discover host) w in
    match discover_replies w with
    | [] => (Pending, w1)
    | r :: q => await (Some r) (set_discover_replies q w1)
    end.

(** [await client.refresh(tokenSet)] *)
Definition client_refresh (c : Client) (t : TokenSet) : M TokenSet :=
  fun w =>
    let w1 := emit (Refresh c t) w in
    match refresh_replies w with
    | [] => (Pending, w1)
    | r :: q => await (Some r) (set_refresh_replies q w1)
    end.

Definition refreshToken (props : AuthProps) (tokenSet : TokenSet) : M TokenSet :=
  run log_info "Discovering oauth server" [];
  do issuer <- Issuer_discover (oauthHost props);
  let neonOAuthClient :=
    {| client_issuer := issuer;
       client_metadata :=
         {| token_endpoint_auth_method := "none";
            client_id := clientId props;
            redirect_uris := None;
            response_types := ["code"] |} |} in
  client_refresh neonOAuthClient tokenSet.

(** *** The loopback server of [auth] *)

(** The state that the request handler of [auth] closes over: the server
    ([listening] until [server.close()] is called), the handlers suspended at
    [await neonOAuthClient.callback(...)], and the promise that [auth]
    returns ([resolved] is its value once [resolve] has been called; later
    calls of [resolve] change nothing).  [exited] is set when a rejection
    that nobody handles has ended the process: nothing runs after that. *)
Record Server : Type := mkServer {
  listening : bool;
  accepted : nat;
  awaiting : list nat;
  resolved : option TokenSet;
  exited : bool;
}.

Definition started : Server :=
  {| listening := true; accepted := 0; awaiting := []; resolved := None;
     exited := false |}.

(** [!request.url?.startsWith('/callback')] *)
Definition not_callback (url : option string) : bool :=
  match url with
  | None => true
  | Some u => negb (Js.startsWith "/callback" u)
  end.

(** The part of the handler up to its [await], run when a request reaches
    it.  The handler has no test of its own for the state of the server: it
    serves whatever reaches it.  [server.close()] makes node refuse new
    connections, so what reaches the handler after it are the requests on
    connections that are still open.  When [callbackParams] throws, the
    handler's promise is rejected there, with nobody to handle it.  The
    events are in the order they happen. *)
Definition on_request (c : Client) (port : N) (checks : CallbackChecks)
    (request : IncomingMessage) (s : Server) : Server * list Event :=
  if exited s then (s, [])
  else
    let req := accepted s in
    if not_callback (url request) then
      (mkServer (listening s) (S req) (awaiting s) (resolved s) false,
       [Respond req 404 [] None])
    else
      let received := Log LInfo ("Callback received: " +:+ default "" (url request)) [] in
      match client_callbackParams request with
      | inl e =>
          (mkServer (listening s) (S req) (awaiting s) (resolved s)
             unhandled_rejection_exits,
           [received; UnhandledRejection e])
      | inr params =>
          (mkServer (listening s) (S req) (awaiting s ++ [req]) (resolved s) false,
           [received; CallbackExchange req c (REDIRECT_URI port) params checks])
      end.

(** The part of the handler after its [await], run when the exchange of
    request [req] settles.  A rejection leaves the handler's promise rejected
    with nobody to handle it: no response is written, [resolve] and
    [server.close()] are not called, and the process ends there when that is
    what node does with such a rejection. *)
Definition on_exchanged (req : nat) (reply : Js.error + TokenSet) (s : Server)
    : Server * list Event :=
  if exited s || negb (existsb (Nat.eqb req) (awaiting s)) then (s, [])
  else
    let rest := List.filter (fun r => negb (Nat.eqb req r)) (awaiting s) in
    match reply with
    | inl e =>
        (mkServer (listening s) (accepted s) rest (resolved s)
           unhandled_rejection_exits,
         [UnhandledRejection e])
    | inr tokenSet =>
        (mkServer false (accepted s) rest
           (match resolved s with Some t => Some t | None => Some tokenSet end)
           false,
         [Respond req 200 [("Content-Type", "text/html")] (Some callback_html);
          Resolve tokenSet;
          ServerClose])
    end.

Definition on_event (c : Client) (port : N) (checks : CallbackChecks)
    (ev : ServerEvent) (s : Server) : Server * list Event :=
  match ev with
  | Request request => on_request c port checks request s
  | Exchanged req reply => on_exchanged req reply s
  end.

Fixpoint serve (c : Client) (port : N) (checks : CallbackChecks)
    (evs : list ServerEvent) (s : Server) : Server * list Event :=
  match evs with
  | [] => (s, [])
  | ev :: evs' =>
      let '(s1, out1) := on_event c port checks ev s in
      let '(s2, out2) := serve c port checks evs' s1 in
      (s2, out1 ++ out2)
  end.

(** [createServer(); server.listen(0, ...); server.address().port] *)
Definition server_listen : M N :=
  fun w => (Returns (ephemeral_port w), emit (Listen (ephemeral_port w)) w).

(** [generators.state()] and [generators.codeVerifier()]: the next value of
    the random source *)
Definition generators_random : M string :=
  fun w => (Returns (random w (drawn w)), set_drawn (S (drawn w)) w).

Definition generators_state : M string := generators_random.
Definition generators_codeVerifier : M string := generators_random.

(** Awaiting the promise of [auth]: everything that reaches the server is
    handled; the promise has the value of the first [resolve], and [auth]
    never returns when there was none. *)
Definition await_callback (c : Client) (port : N) (checks : CallbackChecks)
    : M TokenSet :=
  fun w =>
    let '(s, out) := serve c port checks (inbound w) started in
    (match resolved s with Some t => Returns t | None => Pending end,
     set_inbound [] (emits (rev out) w)).

(** [auth].  The constructor of the client, [server.address()] and
    [authorizationUrl] are taken to return: a throw of one of them, which
    would reject the promise of [auth], is not modelled. *)
Definition auth (props : AuthProps) : M TokenSet :=
  run log_info "Discovering oauth server" [];
  do issuer <- Issuer_discover (oauthHost props);
  (* Start HTTP server and wait till /callback is hit *)
  do listen_port <- server_listen;
  let neonOAuthClient :=
    {| client_issuer := issuer;
       client_metadata :=
         {| token_endpoint_auth_method := "none";
            client_id := clientId props;
            redirect_uris := Some [REDIRECT_URI listen_port];
            response_types := ["code"] |} |} in
  do state <- generators_state;
  (* we store the code_verifier in memory *)
  do codeVerifier <- generators_codeVerifier;
  let codeChallenge := generators_codeChallenge codeVerifier in
  (* Open browser to let user authenticate *)
  let authParams :=
    {| scope := Js.join " " DEFAULT_SCOPES;
       state := state;
       code_challenge := codeChallenge;
       code_challenge_method := "S256" |} in
  run tell (AuthorizationUrl neonOAuthClient authParams);
  let authUrl := client_authorizationUrl neonOAuthClient authParams in
  run tell (OpenBrowser authUrl);
  (* the callback of [listen] runs once the synchronous part is over *)
  run log_info ("Listening on port " +:+ decimal listen_port) [];
  await_callback neonOAuthClient listen_port
    {| check_code_verifier := codeVerifier; check_state := state |}.

End WithPlatform.
End Auth.

(** ** [src/commands/auth.ts] *)

Section Commands.
Context {P : Platform}.

(** The argument of [authFlow] and [ensureAuth]: [AuthProps], and for
    [ensureAuth] also [apiKey], [apiClient] and [help].  [positional] is the
    field [_] of yargs. *)
Record AuthProps : Type := mkProps {
  positional : list Js.val;
  configDir : string;
  oauthHost : string;
  apiHost : string;
  clientId : string;
  forceAuth : bool;
  apiKey : Js.val;
  apiClient : option ApiClient;
  help : bool;
}.

(** [props.apiKey = k] *)
Definition set_apiKey (k : Js.val) (p : AuthProps) : AuthProps :=
  mkProps (positional p) (configDir p) (oauthHost p) (apiHost p) (clientId p)
    (forceAuth p) k (apiClient p) (help p).

(** [props.apiClient = c] *)
Definition set_apiClient (c : ApiClient) (p : AuthProps) : AuthProps :=
  mkProps (positional p) (configDir p) (oauthHost p) (apiHost p) (clientId p)
    (forceAuth p) (apiKey p) (Some c) (help p).

(** [isCi()] of [../env.js]: a reading of the process environment *)
Definition isCi : M bool := fun w => (Returns (ci w), w).

(** [existsSync(path)] *)
Definition existsSync (path : string) : M bool :=
  fun w => (Returns (match fs w !! path with Some _ => true | None => false end), w).

(** The error of a system call on a path that is not there. *)
Definition ENOENT (path : string) : Js.error :=
  {| Js.instanceof_Error := true;
     Js.message := "ENOENT: no such file or directory, open '" +:+ path +:+ "'";
     Js.code := Some "ENOENT" |}.

(** [readFileSync(path, 'utf8')] *)
Definition readFileSync (path : string) : M string :=
  fun w =>
    match fs w !! path with
    | Some (Readable contents) => (Returns contents, w)
    | Some (Unreadable e) => (Throws e, w)
    | None => (Throws (ENOENT path), w)
    end.

(** [writeFileSync(path, contents, { mode })]: the file holds [contents] and
    nothing else afterwards, or the call throws.  The faults of the model
    are those of the open of the file ([EACCES], [EISDIR], [ENOENT] of the
    directory), which leave the file as it was; a write that fails after the
    open, which has truncated the file by then, is not modelled. *)
Definition writeFileSync (path contents : string) (mode : N) : M unit :=
  fun w =>
    match write_fault w path with
    | Some e => (Throws e, w)
    | None =>
        (Returns tt,
         emit (WriteFile path contents mode) (set_fs (<[path := Readable contents]> (fs w)) w))
    end.

(** [const { data: { id } } = await apiClient.getCurrentUserInfo()] *)
Definition getCurrentUserInfo (api : ApiClient) : M string :=
  fun w =>
    let w1 := emit (GetCurrentUserInfo api) w in
    match identity_replies w with
    | [] => (Pending, w1)
    | r :: q => await (Some r) (set_identity_replies q w1)
    end.

(** [new TokenSet(JSON.parse(contents))] *)
Definition parse_TokenSet (contents : string) : M TokenSet :=
  await (Some (TokenSet_parse contents)).

(** [tokenSet.expired()] *)
Definition expired (t : TokenSet) : M bool :=
  fun w => (Returns (TokenSet_expired (now w) t), w).

Definition md5hash (s : string) : string := md5_hex s.

Definition preserveCredentials (path : string) (credentials : TokenSet)
    (apiClient : ApiClient) : M unit :=
  do id <- getCurrentUserInfo apiClient;
  let contents := JSON_stringify (Js.spread_with credentials "user_id" (Js.VStr id)) in
  (* correctly sets needed permissions for the credentials file *)
  run writeFileSync path contents 448 (* 0o700 *);
  run log_info "Saved credentials to %s" [Js.VStr path];
  log_debug "Credentials MD5 hash: %s" [Js.VStr (md5hash contents)].

Definition authFlow (props : AuthProps) : M Js.val :=
  do unattended <- (if negb (forceAuth props) then isCi else ret false);
  if unattended then
    throw (Js.Error "Cannot run interactive auth in CI")
  else
    do tokenSet <- Auth.auth {| Auth.oauthHost := oauthHost props;
                                Auth.clientId := clientId props |};
    let credentialsPath := path_join (configDir props) CREDENTIALS_FILE in
    run preserveCredentials credentialsPath tokenSet
          (getApiClient (Js.or (access_token tokenSet) (Js.VStr "")) (apiHost props));
    run log_info "Auth complete" [];
    ret (Js.or (access_token tokenSet) (Js.VStr "")).

Definition command : string := "auth".
Definition aliases : list string := ["login"].
Definition describe : string := "Authenticate".

(** [handler]: [await authFlow(args)]; the key that [authFlow] returns is dropped. *)
Definition handler (args : AuthProps) : M unit :=
  run authFlow args;
  ret tt.

(** [props._[0] === 'auth'] *)
Definition is_auth_command (props : AuthProps) : bool :=
  match positional props with
  | v :: _ => Js.is_str v "auth"
  | [] => false
  end.

(** The condition of the [catch] of [ensureAuth] under which the
    authentication flow is started. *)
Definition starts_auth_flow (e : Js.error) : bool :=
  (Js.instanceof_Error e && Js.includes "AUTH_REFRESH_FAILED" (Js.message e))
  || bool_decide (Js.code e = Some "ENOENT").

(** The statements after the [if]/[else] of [ensureAuth]. *)
Definition with_apiClient (props : AuthProps) : AuthProps :=
  set_apiClient (getApiClient (apiKey props) (apiHost props)) props.

(** [ensureAuth] mutates [props]; the model returns the mutated object. *)
Definition ensureAuth (props : AuthProps) : M AuthProps :=
  if (length (positional props) =? 0)%nat || help props then ret props
  else if Js.truthy (apiKey props) || is_auth_command props then
    run (if Js.truthy (apiKey props)
         then log_debug "using an API key to authorize requests" []
         else ret tt);
    ret (with_apiClient props)
  else
    let credentialsPath := path_join (configDir props) CREDENTIALS_FILE in
    do present <- existsSync credentialsPath;
    if present then
      run log_debug "Trying to read credentials from %s" [Js.VStr credentialsPath];
      try_catch
        (do contents <- readFileSync credentialsPath;
         run log_debug "Credentials MD5 hash: %s" [Js.VStr (md5hash contents)];
         do tokenSet <- parse_TokenSet contents;
         do isExpired <- expired tokenSet;
         if isExpired then
           run log_debug "Using refresh token to update access token" [];
           do refreshedTokenSet <-
             try_catch
               (Auth.refreshToken
                  {| Auth.oauthHost := oauthHost props;
                     Auth.clientId := clientId props |}
                  tokenSet)
               (fun err =>
                  let typedErr := if Js.instanceof_Error err then Some err else None in
                  run log_error ("Failed to refresh token" +:+ newline +:+ "%s")
                    [from_option (fun e => Js.VStr (Js.message e)) Js.VUndefined typedErr];
                  run log_info "Starting auth flow" [];
                  throw (Js.Error "AUTH_REFRESH_FAILED"));
           let props1 :=
             with_apiClient
               (set_apiKey (Js.or (access_token refreshedTokenSet) (Js.VStr "UNKNOWN")) props) in
           run preserveCredentials credentialsPath refreshedTokenSet
                 (getApiClient (apiKey props1) (apiHost props1));
           ret props1
         else
           let token := Js.or (access_token tokenSet) (Js.VStr "UNKNOWN") in
           ret (with_apiClient (set_apiKey token props)))
        (fun e =>
           if starts_auth_flow e then
             do key <- authFlow props;
             ret (with_apiClient (set_apiKey key props))
           else
             (* throw for any other errors *)
             throw e)
    else
      run log_debug "Credentials file %s does not exist, starting authentication"
            [Js.VStr credentialsPath];
      do key <- authFlow props;
      ret (with_apiClient (set_apiKey key props)).

End Commands.

(** ** A platform to run the model on

    Stand-ins for the library functions, so that the definitions above can be
    evaluated on concrete worlds.  [JSON_stringify] and [TokenSet_parse]
    handle flat objects of strings without escapes and of integers; the hash
    functions are placeholders that only tag their argument. *)

Module Mock.

Definition quote : string := String (ascii_of_nat 34) EmptyString.

Definition decimalZ (n : Z) : string := NilZero.string_of_int (Z.to_int n).

Fixpoint stringify (v : Js.val) : string :=
  match v with
  | Js.VUndefined | Js.VNull => "null"
  | Js.VBool true => "true"
  | Js.VBool false => "false"
  | Js.VNum n => decimalZ n
  | Js.VStr s => quote +:+ s +:+ quote
  | Js.VArr items =>
      "[" +:+ Js.join "," ((fix go (l : list Js.val) : list string :=
                              match l with
                              | [] => []
                              | x :: l' => stringify x :: go l'
                              end) items) +:+ "]"
  | Js.VObj fields =>
      "{" +:+ Js.join "," ((fix go (l : list (string * Js.val)) : list string :=
                              match l with
                              | [] => []
                              | (k, x) :: l' => (quote +:+ k +:+ quote +:+ ":" +:+ stringify x) :: go l'
                              end) fields) +:+ "}"
  end.

Definition is_quote (c : ascii) : bool := Ascii.eqb c (ascii_of_nat 34).

Definition is_digit (c : ascii) : bool :=
  let n := nat_of_ascii c in ((48 <=? n) && (n <=? 57))%nat.

(** the characters up to the closing quote, and what follows it *)
Fixpoint read_string (s : string) : option (string * string) :=
  match s with
  | EmptyString => None
  | String c s' =>
      if is_quote c then Some (EmptyString, s')
      else match read_string s' with
           | Some (body, rest) => Some (String c body, rest)
           | None => None
           end
  end.

Fixpoint read_digits (acc : Z) (s : string) : Z * string :=
  match s with
  | String c s' =>
      if is_digit c
      then read_digits (10 * acc + Z.of_nat (nat_of_ascii c - 48)) s'
      else (acc, s)
  | EmptyString => (acc, s)
  end.

Definition read_value (s : string) : option (Js.val * string) :=
  match s with
  | String c s' =>
      if is_quote c then
        match read_string s' with
        | Some (body, rest) => Some (Js.VStr body, rest)
        | None => None
        end
      else if is_digit c then
        let '(n, rest) := read_digits 0 s in Some (Js.VNum n, rest)
      else None
  | EmptyString => None
  end.

(** [fuel] bounds the number of properties *)
Fixpoint read_fields (fuel : nat) (s : string) : option Js.obj :=
  match fuel with
  | O => None
  | S fuel' =>
      match s with
      | String c s1 =>
          if is_quote c then
            match read_string s1 with
            | Some (k, String ":" s2) =>
                match read_value s2 with
                | Some (v, String "," s3) =>
                    match read_fields fuel' s3 with
                    | Some o => Some ((k, v) :: o)
                    | None => None
                    end
                | Some (v, String "}" EmptyString) => Some [(k, v)]
                | _ => None
                end
            | _ => None
            end
          else None
      | EmptyString => None
      end
  end.

Definition SyntaxError : Js.error :=
  {| Js.instanceof_Error := true;
     Js.message := "Unexpected token in JSON";
     Js.code := None |}.

Definition parse (s : string) : Js.error + TokenSet :=
  match s with
  | String "{" (String "}" EmptyString) => inr []
  | String "{" s' =>
      match read_fields (String.length s') s' with
      | Some o => inr o
      | None => inl SyntaxError
      end
  | _ => inl SyntaxError
  end.

Definition TypeError (msg : string) : Js.error :=
  {| Js.instanceof_Error := true; Js.message := msg; Js.code := None |}.

(** what follows the first [?] of a url *)
Fixpoint query (u : string) : string :=
  match u with
  | EmptyString => EmptyString
  | String c rest => if Ascii.eqb c "?" then rest else query rest
  end.

Fixpoint split_on (sep : ascii) (s : string) : list string :=
  match s with
  | EmptyString => [EmptyString]
  | String c rest =>
      if Ascii.eqb c sep then EmptyString :: split_on sep rest
      else match split_on sep rest with
           | x :: xs => String c x :: xs
           | [] => [String c EmptyString]
           end
  end.

(** [k=v] as a property *)
Definition parameter (kv : string) : string * Js.val :=
  match split_on "=" kv with
  | k :: v :: _ => (k, Js.VStr v)
  | k :: [] => (k, Js.VStr "")
  | [] => ("", Js.VStr "")
  end.

(** the parameters of a [GET] request are those of its query string; other
    methods are refused *)
Definition callbackParams (request : IncomingMessage) : Js.error + Js.obj :=
  if String.eqb (method request) "GET"
  then inr (List.map parameter (split_on "&" (query (default "" (url request)))))
  else inl (TypeError "invalid IncomingMessage method").

(** [expired()] is [expires_in === 0], and [expires_in] is
    [max(expires_at - now, 0)]; without a numeric [expires_at] that is [NaN],
    which is not [0]. *)
Definition is_expired (now : Z) (t : TokenSet) : bool :=
  match Js.get "expires_at" t with
  | Js.VNum e => e - now <=? 0
  | _ => false
  end.

Definition platform : Platform :=
  {| CREDENTIALS_FILE := "credentials.json";
     path_join := fun a b => a +:+ "/" +:+ b;
     JSON_stringify := fun o => stringify (Js.VObj o);
     TokenSet_parse := parse;
     TokenSet_expired := is_expired;
     md5_hex := fun s => "md5:" +:+ decimal (N.of_nat (String.length s));
     generators_codeChallenge := fun v => "S256:" +:+ v;
     client_authorizationUrl := fun c p =>
       "https://oauth.example/auth?client_id=" +:+ client_id (client_metadata c)
       +:+ "&state=" +:+ state p +:+ "&code_challenge=" +:+ code_challenge p;
     client_callbackParams := callbackParams;
     callback_html := "<html>ok</html>";
     unhandled_rejection_exits := true |}.

(** A world with an empty file system, no faults, and no replies. *)
Definition quiet : World :=
  {| fs := ∅;
     write_fault := fun _ => None;
     now := 1000;
     ci := false;
     discover_replies := [];
     refresh_replies := [];
     identity_replies := [];
     random := fun n => "r" +:+ decimal (N.of_nat n);
     drawn := 0;
     ephemeral_port := 40123;
     inbound := [];
     events := [] |}.

Definition with_file (path : string) (f : File) (w : World) : World :=
  set_fs (<[path := f]> (fs w)) w.

(** [neonctl projects list] with the defaults. *)
Definition props : AuthProps :=
  {| positional := [Js.VStr "projects"; Js.VStr "list"];
     configDir := "/home/u/.config/neonctl";
     oauthHost := "https://oauth2.neon.tech";
     apiHost := "https://console.neon.tech/api/v2";
     clientId := "neonctl";
     forceAuth := false;
     apiKey := Js.VStr "";
     apiClient := None;
     help := false |}.

Definition credentialsPath : string := "/home/u/.config/neonctl/credentials.json".

(** A stored credential that is valid until [4600], and one that ran out at [500]. *)
Definition cached : TokenSet :=
  [("access_token", Js.VStr "tok0"); ("refresh_token", Js.VStr "ref0");
   ("expires_at", Js.VNum 4600); ("user_id", Js.VStr "u1")].

Definition stale : TokenSet :=
  [("access_token", Js.VStr "tok0"); ("refresh_token", Js.VStr "ref0");
   ("expires_at", Js.VNum 500); ("user_id", Js.VStr "u1")].

Definition refreshed : TokenSet :=
  [("access_token", Js.VStr "tok1"); ("refresh_token", Js.VStr "ref1");
   ("expires_at", Js.VNum 8200)].

Definition stored (t : TokenSet) : File := Readable (stringify (Js.VObj t)).

Definition issuer : Issuer :=
  {| issuer_metadata := [("issuer", Js.VStr "https://oauth2.neon.tech/")] |}.

Definition EACCES : Js.error :=
  {| Js.instanceof_Error := true;
     Js.message := "EACCES: permission denied, open '/home/u/.config/neonctl/credentials.json'";
     Js.code := Some "EACCES" |}.

(** The identity API answering 401. *)
Definition Unauthorized : Js.error :=
  {| Js.instanceof_Error := true;
     Js.message := "Request failed with status code 401";
     Js.code := Some "ERR_BAD_REQUEST" |}.

(** The token endpoint refusing the refresh token. *)
Definition invalid_grant : Js.error :=
  {| Js.instanceof_Error := true;
     Js.message := "invalid_grant (Token is inactive)";
     Js.code := None |}.

Definition unattended (w : World) : World :=
  mkWorld (fs w) (write_fault w) (now w) true (discover_replies w)
    (refresh_replies w) (identity_replies w) (random w) (drawn w)
    (ephemeral_port w) (inbound w) (events w).

Definition GET (u : string) : IncomingMessage := {| method := "GET"; url := Some u |}.

(** The browser comes back once with a code, and the exchange gives [t]. *)
Definition browser_returns (t : TokenSet) (w : World) : World :=
  set_inbound [Request (GET "/favicon.ico");
               Request (GET "/callback?code=abc&state=r0");
               Exchanged 1 (inr t)] w.

(** The client and the checks of a login attempt in [quiet]. *)
Definition client : Client :=
  {| client_issuer := issuer;
     client_metadata :=
       {| token_endpoint_auth_method := "none";
          client_id := "neonctl";
          redirect_uris := Some ["http://127.0.0.1:40123/callback"];
          response_types := ["code"] |} |}.

Definition checks : CallbackChecks :=
  {| check_code_verifier := "r1"; check_state := "r0" |}.

(** The stored credential has expired; the issuer is found twice. *)
Definition expired_world : World :=
  set_discover_replies [inr issuer; inr issuer]
    (with_file credentialsPath (stored stale) quiet).

(** The refresh is refused, the browser login that follows gives [refreshed],
    and the identity API knows the user. *)
Definition refresh_refused : World :=
  set_identity_replies [inr "u1"]
    (set_refresh_replies [inl invalid_grant] (browser_returns refreshed expired_world)).

(** The refresh gives [refreshed], and the identity API knows the user. *)
Definition refresh_granted : World :=
  set_identity_replies [inr "u1"] (set_refresh_replies [inr refreshed] expired_world).

(** The refresh gives [refreshed], and the identity API answers 401. *)
Definition refresh_granted_identity_down : World :=
  set_identity_replies [inl Unauthorized] (set_refresh_replies [inr refreshed] expired_world).

(** [neonctl auth], and [neonctl projects list --api-key k0]. *)
Definition auth_props : AuthProps :=
  mkProps [Js.VStr "auth"] (configDir props) (oauthHost props) (apiHost props)
    (clientId props) false (Js.VStr "") None false.

Definition keyed_props : AuthProps :=
  mkProps (positional props) (configDir props) (oauthHost props) (apiHost props)
    (clientId props) false (Js.VStr "k0") None false.

Definition forced_props : AuthProps :=
  mkProps (positional props) (configDir props) (oauthHost props) (apiHost props)
    (clientId props) true (Js.VStr "") None false.

(** The issuer cannot be reached. *)
Definition ECONNREFUSED : Js.error :=
  {| Js.instanceof_Error := true;
     Js.message := "connect ECONNREFUSED 127.0.0.1:443";
     Js.code := Some "ECONNREFUSED" |}.

(** A parse error that quotes the text it stopped at. *)
Definition quoting_SyntaxError : Js.error :=
  {| Js.instanceof_Error := true;
     Js.message := "Unexpected token 'A', AUTH_REFRESH_FAILED is not valid JSON";
     Js.code := None |}.

(** The issuer is found, the browser comes back and the exchange gives [refreshed]. *)
Definition login_world : World :=
  browser_returns refreshed (set_discover_replies [inr issuer] quiet).


(** [neonctl login], by the alias of the command. *)
Definition login_props : AuthProps :=
  mkProps [Js.VStr "login"] (configDir props) (oauthHost props) (apiHost props)
    (clientId props) false (Js.VStr "") None false.

(** [JSON.parse] as in node 20 and later: the message of its [SyntaxError]
    quotes the text that it could not read. *)
Definition quoting_parse (s : string) : Js.error + TokenSet :=
  match parse s with
  | inl _ =>
      inl {| Js.instanceof_Error := true;
             Js.message := "Unexpected token '" +:+ substring 0 1 s +:+ "', "
                           +:+ quote +:+ s +:+ quote +:+ " is not valid JSON";
             Js.code := None |}
  | inr t => inr t
  end.

Definition quoting_platform : Platform :=
  {| CREDENTIALS_FILE := @CREDENTIALS_FILE platform;
     path_join := @path_join platform;
     JSON_stringify := @JSON_stringify platform;
     TokenSet_parse := quoting_parse;
     TokenSet_expired := @TokenSet_expired platform;
     md5_hex := @md5_hex platform;
     generators_codeChallenge := @generators_codeChallenge platform;
     client_authorizationUrl := @client_authorizationUrl platform;
     client_callbackParams := @client_callbackParams platform;
     callback_html := @callback_html platform;
     unhandled_rejection_exits := @unhandled_rejection_exits platform |}.

(** [neonctl projects list] with a configuration directory whose name holds
    the text that the [catch] of [ensureAuth] looks for, and the error of a
    read that is not permitted there: node puts the path in the message. *)
Definition sentinel_props : AuthProps :=
  mkProps (positional props) "/home/u/AUTH_REFRESH_FAILED" (oauthHost props) (apiHost props)
    (clientId props) false (Js.VStr "") None false.

Definition sentinel_path : string := "/home/u/AUTH_REFRESH_FAILED/credentials.json".

Definition EACCES_at (path : string) : Js.error :=
  {| Js.instanceof_Error := true;
     Js.message := "EACCES: permission denied, open '" +:+ path +:+ "'";
     Js.code := Some "EACCES" |}.
End Mock.

(** * Notions used in the statements *)

Section Notions.
Context {P : Platform}.

(** ** Program points of [ensureAuth] *)

(** [ensureAuth] gets as far as the credentials file: a command is given,
    [--help] is not, there is no explicit API key, and the command is not
    [auth] itself. *)
Definition uses_credentials_file (props : AuthProps) : bool :=
  negb ((length (positional props) =? 0)%nat || help props)
  && negb (Js.truthy (apiKey props) || is_auth_command props).

(** [join(props.configDir, CREDENTIALS_FILE)] *)
Definition credentialsPath (props : AuthProps) : string :=
  path_join (configDir props) CREDENTIALS_FILE.

(** The argument that [ensureAuth] and [authFlow] pass to [refreshToken] and [auth]. *)
Definition authProps (props : AuthProps) : Auth.AuthProps :=
  {| Auth.oauthHost := oauthHost props; Auth.clientId := clientId props |}.

(** The world in which [ensureAuth] has read [contents] from the credentials file. *)
Definition after_read (props : AuthProps) (contents : string) (w : World) : World :=
  emits [Log LDebug "Credentials MD5 hash: %s" [Js.VStr (md5hash contents)];
         Log LDebug "Trying to read credentials from %s" [Js.VStr (credentialsPath props)]] w.

(** The world in which [ensureAuth] calls [refreshToken]. *)
Definition at_refresh (props : AuthProps) (contents : string) (w : World) : World :=
  emit (Log LDebug "Using refresh token to update access token" [])
    (after_read props contents w).

(** The world in which the inner [catch] of [ensureAuth] throws
    [AUTH_REFRESH_FAILED], [w2] being the world [refreshToken] left and [err]
    what it threw. *)
Definition after_failed_refresh (err : Js.error) (w2 : World) : World :=
  emits [Log LInfo "Starting auth flow" [];
         Log LError ("Failed to refresh token" +:+ newline +:+ "%s")
           [if Js.instanceof_Error err then Js.VStr (Js.message err) else Js.VUndefined]] w2.

(** [props.apiKey = await authFlow(props)] and the statements that follow it. *)
Definition login_then_continue (props : AuthProps) : M AuthProps :=
  do key <- authFlow props;
  ret (with_apiClient (set_apiKey key props)).

(** The outer [catch] of [ensureAuth]. *)
Definition on_catch (props : AuthProps) (e : Js.error) : M AuthProps :=
  if starts_auth_flow e then login_then_continue props else throw e.

(** ** The credential store *)

(** The [contents] that [preserveCredentials] writes for a token set and a
    resolved user id. *)
Definition stored_credential (credentials : TokenSet) (id : string) : string :=
  JSON_stringify (Js.spread_with credentials "user_id" (Js.VStr id)).

(** The world after a successful [preserveCredentials], [w] being the world
    before and [q] the identity replies left. *)
Definition saved (path : string) (credentials : TokenSet) (api : ApiClient)
    (id : string) (q : list (Js.error + string)) (w : World) : World :=
  emits [Log LDebug "Credentials MD5 hash: %s" [Js.VStr (md5hash (stored_credential credentials id))];
         Log LInfo "Saved credentials to %s" [Js.VStr path];
         WriteFile path (stored_credential credentials id) 448]
    (set_fs (<[path := Readable (stored_credential credentials id)]> (fs w))
       (set_identity_replies q (emit (GetCurrentUserInfo api) w))).

(** The user ids among the replies of the identity API. *)
Fixpoint answered (replies : list (Js.error + string)) : list string :=
  match replies with
  | [] => []
  | inl _ :: rest => answered rest
  | inr id :: rest => id :: answered rest
  end.

(** [Justified path ids f f']: the file system [f'] is [f] after any number
    of writes to [path], each of them the serialisation of a token set with
    a [user_id] out of [ids]. *)
Inductive Justified (path : string) (ids : list string) (f : gmap string File)
  : gmap string File -> Prop :=
| justified_same : Justified path ids f f
| justified_write (f' : gmap string File) (t : TokenSet) (id : string) :
    Justified path ids f f' ->
    In id ids ->
    Justified path ids f (<[path := Readable (stored_credential t id)]> f').

(** [Writes path w w']: from [w] to [w'] the identity API gave the replies
    [used], and the file system changed by writes to [path] that are
    justified by the user ids among them. *)
Definition Writes (path : string) (w w' : World) : Prop :=
  write_fault w' = write_fault w /\
  exists used,
    identity_replies w = used ++ identity_replies w' /\
    Justified path (answered used) (fs w) (fs w').

(** Whatever the world, [m] writes to [path] only, and only what an identity
    lookup of its own justifies. *)
Definition writes_justified {A} (path : string) (m : M A) : Prop :=
  forall w, Writes path w (snd (m w)).

(** [m] leaves the file system and the identity API alone. *)
Definition keeps_store {A} (m : M A) : Prop :=
  forall w,
    fs (snd (m w)) = fs w /\
    write_fault (snd (m w)) = write_fault w /\
    identity_replies (snd (m w)) = identity_replies w.

(** ** The loopback receiver *)

(** The state of the server of [auth] after the events [evs], from its start. *)
Definition server_after (c : Client) (port : N) (checks : CallbackChecks)
    (evs : list ServerEvent) : Auth.Server :=
  fst (Auth.serve c port checks evs Auth.started).

(** The [i]-th event of [evs] is the one that settles the promise of [auth]. *)
Definition resolves_at (c : Client) (port : N) (checks : CallbackChecks)
    (evs : list ServerEvent) (i : nat) : Prop :=
  Auth.resolved (server_after c port checks (firstn i evs)) = None /\
  Auth.resolved (server_after c port checks (firstn (S i) evs)) <> None.

(** The path of a request: its url up to the query string. *)
Fixpoint pathname (u : string) : string :=
  match u with
  | EmptyString => EmptyString
  | String ch rest => if Ascii.eqb ch "?" then EmptyString else String ch (pathname rest)
  end.

(** ** The login attempt *)

(** The client that [auth] creates. *)
Definition auth_client (props : Auth.AuthProps) (iss : Issuer) (port : N) : Client :=
  {| client_issuer := iss;
     client_metadata :=
       {| token_endpoint_auth_method := "none";
          client_id := Auth.clientId props;
          redirect_uris := Some [Auth.REDIRECT_URI port];
          response_types := ["code"] |} |}.

(** The argument of [authorizationUrl] in [auth], for a state and a code verifier. *)
Definition auth_parameters (state verifier : string) : AuthorizationParameters :=
  {| scope := Js.join " " Auth.DEFAULT_SCOPES;
     state := state;
     code_challenge := generators_codeChallenge verifier;
     code_challenge_method := "S256" |}.

End Notions.

(** * Notions for the further properties *)

Section FurtherNotions.
Context {P : Platform}.

(** ** What a run adds to the log *)

(** The kinds of events. *)
Inductive Kind : Type :=
| KLog | KDiscover | KListen | KAuthorizationUrl | KOpenBrowser | KRespond
| KCallbackExchange | KResolve | KServerClose | KUnhandledRejection | KRefresh
| KGetCurrentUserInfo | KWriteFile.

#[export] Instance Kind_eq_dec : EqDecision Kind.
Proof. solve_decision. Defined.

Definition kind_of (ev : Event) : Kind :=
  match ev with
  | Log _ _ _ => KLog
  | Discover _ => KDiscover
  | Listen _ => KListen
  | AuthorizationUrl _ _ => KAuthorizationUrl
  | OpenBrowser _ => KOpenBrowser
  | Respond _ _ _ _ => KRespond
  | CallbackExchange _ _ _ _ _ => KCallbackExchange
  | Resolve _ => KResolve
  | ServerClose => KServerClose
  | UnhandledRejection _ => KUnhandledRejection
  | Refresh _ _ => KRefresh
  | GetCurrentUserInfo _ => KGetCurrentUserInfo
  | WriteFile _ _ _ => KWriteFile
  end.

(** The calls to the outside that neither the logger nor the request handler makes. *)
Definition is_call (k : Kind) : bool :=
  match k with
  | KDiscover | KListen | KAuthorizationUrl | KOpenBrowser | KRefresh
  | KGetCurrentUserInfo | KWriteFile => true
  | _ => false
  end.

(** How many events of kind [k] there are in [evs]. *)
Definition occurrences (k : Kind) (evs : list Event) : nat :=
  length (List.filter (fun ev => bool_decide (kind_of ev = k)) evs).

(** [1] when [k'] is the kind counted, [0] otherwise. *)
Definition one (k k' : Kind) : nat := if bool_decide (k' = k) then 1%nat else 0%nat.

(** [Calls k n w w']: from [w] to [w'] the log has grown, by at most [n]
    events of kind [k], and the context is attended or unattended as before. *)
Definition Calls (k : Kind) (n : nat) (w w' : World) : Prop :=
  ci w' = ci w /\
  exists new, events w' = new ++ events w /\ (occurrences k new <= n)%nat.

(** Whatever the world ([unattended]: whatever the world of an unattended
    context), [m] makes at most [n] calls of kind [k]. *)
Definition calls {A} (unattended : bool) (k : Kind) (n : nat) (m : M A) : Prop :=
  forall w, (unattended = true -> ci w = true) -> Calls k n w (snd (m w)).

(** The calls of [refreshToken], of [auth], of [preserveCredentials], of
    [authFlow] and of [ensureAuth], counted per kind. *)
Definition refresh_calls (k : Kind) : nat := (one k KDiscover + one k KRefresh)%nat.

Definition login_calls (k : Kind) : nat :=
  (one k KDiscover + one k KListen + one k KAuthorizationUrl + one k KOpenBrowser)%nat.

Definition save_calls (k : Kind) : nat := (one k KGetCurrentUserInfo + one k KWriteFile)%nat.

Definition flow_calls (unattended : bool) (props : AuthProps) (k : Kind) : nat :=
  if unattended && negb (forceAuth props) then 0%nat else (login_calls k + save_calls k)%nat.

Definition ensureAuth_calls (unattended : bool) (props : AuthProps) (k : Kind) : nat :=
  (refresh_calls k + save_calls k + flow_calls unattended props k)%nat.

(** ** The execution context *)

Definition set_ci (b : bool) (w : World) : World :=
  mkWorld (fs w) (write_fault w) (now w) b (discover_replies w)
    (refresh_replies w) (identity_replies w) (random w) (drawn w)
    (ephemeral_port w) (inbound w) (events w).

(** [m] does the same in an attended and in an unattended context. *)
Definition ignores_ci {A} (m : M A) : Prop :=
  forall b w, m (set_ci b w) = (fst (m w), set_ci b (snd (m w))).

(** ** What [ensureAuth] returns *)

(** Every value that [m] returns satisfies [Q]. *)
Definition returns_only {A} (Q : A -> Prop) (m : M A) : Prop :=
  forall w a, fst (m w) = Returns a -> Q a.

(** [p'] is [p] up to [apiKey] and [apiClient]. *)
Definition same_settings (p p' : AuthProps) : Prop :=
  positional p' = positional p /\ configDir p' = configDir p /\
  oauthHost p' = oauthHost p /\ apiHost p' = apiHost p /\
  clientId p' = clientId p /\ forceAuth p' = forceAuth p /\ help p' = help p.

(** The API client of [p'] is the one of its key and host. *)
Definition client_matches_key (p' : AuthProps) : Prop :=
  apiClient p' = Some (getApiClient (apiKey p') (apiHost p')).

(** ** The responses of the loopback server *)

(** The requests that are answered in [out], in the order of the answers. *)
Fixpoint responded (out : list Event) : list nat :=
  match out with
  | [] => []
  | Respond req _ _ _ :: rest => req :: responded rest
  | _ :: rest => responded rest
  end.

(** The requests in flight are distinct and were accepted; the answered
    ones are distinct, were accepted and are no longer in flight. *)
Definition answers_once (s : Auth.Server) (done : list nat) : Prop :=
  NoDup (Auth.awaiting s) /\
  (forall r, In r (Auth.awaiting s) -> (r < Auth.accepted s)%nat) /\
  NoDup done /\
  (forall r, In r done -> (r < Auth.accepted s)%nat /\ ~ In r (Auth.awaiting s)).

End FurtherNotions.

(** * Symbolic execution *)

Lemma emits_cons (ev : Event) (evs : list Event) (w : World) :
  emits (ev :: evs) w = emit ev (emits evs w).
Proof. reflexivity. Qed.

Lemma emits_nil (w : World) : emits [] w = w.
Proof. now destruct w. Qed.

(** Worlds are kept as towers of [emit] and of the setters; only what is
    read off them is computed. *)
Ltac norm_world :=
  unfold at_refresh, after_read, after_failed_refresh, credentialsPath, authProps in *;
  rewrite ?emits_cons, ?emits_nil in *;
  cbn [fs write_fault now ci discover_replies refresh_replies identity_replies
       random drawn ephemeral_port inbound events
       emit emits set_fs set_discover_replies set_refresh_replies
       set_identity_replies set_drawn set_inbound app fst snd] in *.

Ltac run_step :=
  cbv beta iota delta [bind try_catch ret throw tell log_debug log_info log_error
                         existsSync readFileSync parse_TokenSet await expired
                         isCi login_then_continue on_catch];
  norm_world.

(** [run_with ltac:(rewrite ...)] alternates computation and the rewriting of
    the facts about the world. *)
Ltac run_with rw := repeat (progress (run_step; rw)).

(** Enters the part of [ensureAuth] that deals with the credentials file. *)
Ltac file_logic Hu :=
  unfold uses_credentials_file in Hu;
  apply andb_prop in Hu as [?Hcmd ?Hkey];
  apply negb_true_iff in Hcmd, Hkey;
  unfold ensureAuth; rewrite Hcmd, Hkey;
  norm_world.

(** * Examples *)

Example includes_ex : Js.includes "AUTH_REFRESH_FAILED" "Error: AUTH_REFRESH_FAILED!" = true.
Proof. reflexivity. Qed.

Example join_ex : Js.join " " ["a"; "b"; "c"] = "a b c".
Proof. reflexivity. Qed.

Example spread_with_ex :
  Js.spread_with [("access_token", Js.VStr "t"); ("user_id", Js.VStr "old")] "user_id" (Js.VStr "u1")
  = [("access_token", Js.VStr "t"); ("user_id", Js.VStr "u1")].
Proof. reflexivity. Qed.

Example REDIRECT_URI_ex : Auth.REDIRECT_URI 40123 = "http://127.0.0.1:40123/callback".
Proof. reflexivity. Qed.

Example parse_stringify_ex :
  Mock.parse (Mock.stringify (Js.VObj Mock.cached)) = inr Mock.cached.
Proof. reflexivity. Qed.

Example parse_corrupt_ex : Mock.parse "{not json" = inl Mock.SyntaxError.
Proof. reflexivity. Qed.

Example callbackParams_ex :
  Mock.callbackParams (Mock.GET "/callback?code=abc&state=r0")
  = inr [("code", Js.VStr "abc"); ("state", Js.VStr "r0")].
Proof. reflexivity. Qed.

(** The scenario of the specification: no credentials file, the browser
    comes back with a code, the exchange gives [tok1], the identity API
    answers [u1]; the file written holds the token set and the user id. *)
Example first_login_ex :
  let w := set_identity_replies [inr "u1"]
             (Mock.browser_returns [("access_token", Js.VStr "tok1"); ("expires_at", Js.VNum 4600)]
                (set_discover_replies [inr Mock.issuer] Mock.quiet)) in
  let after := @ensureAuth Mock.platform Mock.props w in
  (exists props', fst after = Returns props' /\ apiKey props' = Js.VStr "tok1") /\
  fs (snd after) !! Mock.credentialsPath
  = Some (Mock.stored [("access_token", Js.VStr "tok1"); ("expires_at", Js.VNum 4600);
                       ("user_id", Js.VStr "u1")]) /\
  In (WriteFile Mock.credentialsPath
        (Mock.stringify (Js.VObj [("access_token", Js.VStr "tok1"); ("expires_at", Js.VNum 4600);
                                  ("user_id", Js.VStr "u1")])) 448)
     (events (snd after)).
Proof.
  intros w after. split; [|split].
  - eexists. split; [vm_compute; reflexivity | reflexivity].
  - vm_compute. reflexivity.
  - vm_compute. tauto.
Qed.

(** * Unattended contexts *)

Section Unattended.
Context {P : Platform}.

(** C7. With [forceAuth] false in an unattended context (CI), [authFlow]
    throws at once: the world it leaves is the world it was given, so no
    discovery was made, no listener started and no browser launched. *)
Theorem authFlow_refuses_unattended (props : AuthProps) (w : World) :
  forceAuth props = false ->
  ci w = true ->
  authFlow props w = (Throws (Js.Error "Cannot run interactive auth in CI"), w).
Proof.
  intros Hforce Hci. unfold authFlow. rewrite Hforce. cbn [negb].
  run_with ltac:(rewrite ?Hci). reflexivity.
Qed.

End Unattended.

Lemma authFlow_refuses_unattended_witness :
  forceAuth Mock.props = false /\ ci (Mock.unattended Mock.quiet) = true /\
  @authFlow Mock.platform Mock.props (Mock.unattended Mock.quiet)
  = (Throws (Js.Error "Cannot run interactive auth in CI"), Mock.unattended Mock.quiet).
Proof.
  split; [reflexivity|]. split; [reflexivity|].
  apply (@authFlow_refuses_unattended Mock.platform); reflexivity.
Defined.

(** * The credential store *)

Section CredentialStore.
Context {P : Platform}.

Lemma get_set_eq (k : string) (v : Js.val) (o : Js.obj) : Js.get k (Js.set k v o) = v.
Proof.
  induction o as [|[k' v'] o IH]; cbn.
  - now rewrite String.eqb_refl.
  - destruct (String.eqb k' k) eqn:E; cbn.
    + now rewrite String.eqb_refl.
    + now rewrite E.
Qed.

Lemma get_set_ne (k k' : string) (v : Js.val) (o : Js.obj) :
  k <> k' -> Js.get k' (Js.set k v o) = Js.get k' o.
Proof.
  intros Hne. induction o as [|[k0 v0] o IH]; cbn.
  - apply String.eqb_neq in Hne. now rewrite Hne.
  - destruct (String.eqb k0 k) eqn:E; cbn.
    + apply String.eqb_eq in E. subst k0.
      apply String.eqb_neq in Hne. now rewrite Hne.
    + now rewrite IH.
Qed.

(** ** The four ways [preserveCredentials] can go *)

Lemma preserveCredentials_unanswered path credentials api w :
  identity_replies w = [] ->
  preserveCredentials path credentials api w = (Pending, emit (GetCurrentUserInfo api) w).
Proof.
  intros Hid. unfold preserveCredentials, getCurrentUserInfo.
  run_with ltac:(rewrite ?Hid). reflexivity.
Qed.

Lemma preserveCredentials_identity_rejected path credentials api w e q :
  identity_replies w = inl e :: q ->
  preserveCredentials path credentials api w
  = (Throws e, set_identity_replies q (emit (GetCurrentUserInfo api) w)).
Proof.
  intros Hid. unfold preserveCredentials, getCurrentUserInfo.
  run_with ltac:(rewrite ?Hid). reflexivity.
Qed.

Lemma preserveCredentials_write_fault path credentials api w id q e :
  identity_replies w = inr id :: q ->
  write_fault w path = Some e ->
  preserveCredentials path credentials api w
  = (Throws e, set_identity_replies q (emit (GetCurrentUserInfo api) w)).
Proof.
  intros Hid Hw. unfold preserveCredentials, getCurrentUserInfo, writeFileSync.
  run_with ltac:(rewrite ?Hid, ?Hw). reflexivity.
Qed.

Lemma preserveCredentials_saved path credentials api w id q :
  identity_replies w = inr id :: q ->
  write_fault w path = None ->
  preserveCredentials path credentials api w = (Returns tt, saved path credentials api id q w).
Proof.
  intros Hid Hw.
  unfold preserveCredentials, getCurrentUserInfo, writeFileSync, saved, stored_credential.
  run_with ltac:(rewrite ?Hid, ?Hw). reflexivity.
Qed.

(** ** Writes are justified by identity lookups, throughout the program *)

Lemma Justified_trans path ids f1 f2 f3 :
  Justified path ids f1 f2 -> Justified path ids f2 f3 -> Justified path ids f1 f3.
Proof.
  intros H12 H23. induction H23 as [|f' t id _ IH Hin]; [exact H12|].
  now apply justified_write.
Qed.

Lemma Justified_mono path ids ids' f f' :
  (forall id, In id ids -> In id ids') ->
  Justified path ids f f' -> Justified path ids' f f'.
Proof.
  intros Hsub H. induction H as [|f' t id _ IH Hin]; [apply justified_same|].
  apply justified_write; auto.
Qed.

Lemma answered_app (a b : list (Js.error + string)) :
  answered (a ++ b) = answered a ++ answered b.
Proof.
  induction a as [|[e|id] a IH]; cbn; [reflexivity|exact IH|now rewrite IH].
Qed.

Lemma Writes_refl path w : Writes path w w.
Proof. split; [reflexivity|]. exists []. split; [reflexivity|apply justified_same]. Qed.

Lemma Writes_trans path w1 w2 w3 :
  Writes path w1 w2 -> Writes path w2 w3 -> Writes path w1 w3.
Proof.
  intros (Hf12 & u12 & Hid12 & J12) (Hf23 & u23 & Hid23 & J23).
  split; [congruence|]. exists (u12 ++ u23). split.
  - now rewrite Hid12, Hid23, app_assoc.
  - rewrite answered_app. apply Justified_trans with (fs w2).
    + apply Justified_mono with (answered u12); [|exact J12].
      intros id Hin. apply in_or_app. now left.
    + apply Justified_mono with (answered u23); [|exact J23].
      intros id Hin. apply in_or_app. now right.
Qed.

Lemma keeps_writes {A} path (m : M A) : keeps_store m -> writes_justified path m.
Proof.
  intros Hk w. destruct (Hk w) as (Hfs & Hwf & Hid).
  split; [exact Hwf|]. exists []. rewrite Hid, Hfs.
  split; [reflexivity|apply justified_same].
Qed.

Lemma keeps_ret {A} (a : A) : keeps_store (ret a).
Proof. now intros w. Qed.

Lemma keeps_throw {A} (e : Js.error) : keeps_store (@throw A e).
Proof. now intros w. Qed.

Lemma keeps_tell (ev : Event) : keeps_store (tell ev).
Proof. now intros w. Qed.

Lemma keeps_await {A} (r : option (Js.error + A)) : keeps_store (await r).
Proof. intros w. now destruct r as [[e|a]|]. Qed.

Lemma keeps_bind {A B} (m : M A) (k : A -> M B) :
  keeps_store m -> (forall a, keeps_store (k a)) -> keeps_store (bind m k).
Proof.
  intros Hm Hk w. unfold bind. specialize (Hm w).
  destruct (m w) as [[a|e|] w1]; cbn [snd] in *; [|exact Hm|exact Hm].
  destruct (Hk a w1) as (H1 & H2 & H3). destruct Hm as (H4 & H5 & H6).
  repeat split; congruence.
Qed.

Lemma keeps_try_catch {A} (m : M A) (h : Js.error -> M A) :
  keeps_store m -> (forall e, keeps_store (h e)) -> keeps_store (try_catch m h).
Proof.
  intros Hm Hh w. unfold try_catch. specialize (Hm w).
  destruct (m w) as [[a|e|] w1]; cbn [snd] in *; [exact Hm| |exact Hm].
  destruct (Hh e w1) as (H1 & H2 & H3). destruct Hm as (H4 & H5 & H6).
  repeat split; congruence.
Qed.

Lemma keeps_Issuer_discover host : keeps_store (Auth.Issuer_discover host).
Proof.
  intros w. unfold Auth.Issuer_discover.
  destruct (discover_replies w) as [|[e|iss] q]; now cbn.
Qed.

Lemma keeps_client_refresh c t : keeps_store (Auth.client_refresh c t).
Proof.
  intros w. unfold Auth.client_refresh.
  destruct (refresh_replies w) as [|[e|t'] q]; now cbn.
Qed.

Lemma keeps_server_listen : keeps_store Auth.server_listen.
Proof. now intros w. Qed.

Lemma keeps_generators_random : keeps_store Auth.generators_random.
Proof. now intros w. Qed.

Lemma keeps_await_callback c port checks : keeps_store (Auth.await_callback c port checks).
Proof.
  intros w. unfold Auth.await_callback.
  now destruct (Auth.serve c port checks (inbound w) Auth.started).
Qed.

Lemma keeps_existsSync path : keeps_store (existsSync path).
Proof. now intros w. Qed.

Lemma keeps_readFileSync path : keeps_store (readFileSync path).
Proof. intros w. unfold readFileSync. now destruct (fs w !! path) as [[c|e]|]. Qed.

Lemma keeps_expired t : keeps_store (expired t).
Proof. now intros w. Qed.

Lemma keeps_isCi : keeps_store isCi.
Proof. now intros w. Qed.

(** One step of the search for a proof of [keeps_store]. *)
Ltac keeps_step :=
  lazy beta zeta;
  first
    [ apply keeps_bind; [|intros ?]
    | apply keeps_try_catch; [|intros ?]
    | apply keeps_ret | apply keeps_throw | apply keeps_tell | apply keeps_await
    | apply keeps_Issuer_discover | apply keeps_client_refresh
    | apply keeps_server_listen | apply keeps_generators_random
    | apply keeps_await_callback | apply keeps_existsSync | apply keeps_readFileSync
    | apply keeps_expired | apply keeps_isCi ].

Lemma keeps_refreshToken ap t : keeps_store (Auth.refreshToken ap t).
Proof. unfold Auth.refreshToken, log_info. repeat keeps_step. Qed.

Lemma keeps_auth ap : keeps_store (Auth.auth ap).
Proof.
  unfold Auth.auth, log_info, Auth.generators_state, Auth.generators_codeVerifier.
  repeat keeps_step.
Qed.

Lemma writes_bind {A B} path (m : M A) (k : A -> M B) :
  writes_justified path m -> (forall a, writes_justified path (k a)) ->
  writes_justified path (bind m k).
Proof.
  intros Hm Hk w. unfold bind. specialize (Hm w).
  destruct (m w) as [[a|e|] w1]; cbn [snd] in *; [|exact Hm|exact Hm].
  exact (Writes_trans _ _ _ _ Hm (Hk a w1)).
Qed.

Lemma writes_try_catch {A} path (m : M A) (h : Js.error -> M A) :
  writes_justified path m -> (forall e, writes_justified path (h e)) ->
  writes_justified path (try_catch m h).
Proof.
  intros Hm Hh w. unfold try_catch. specialize (Hm w).
  destruct (m w) as [[a|e|] w1]; cbn [snd] in *; [exact Hm| |exact Hm].
  exact (Writes_trans _ _ _ _ Hm (Hh e w1)).
Qed.

(** The one place where the program writes. *)
Lemma writes_preserveCredentials path credentials api :
  writes_justified path (preserveCredentials path credentials api).
Proof.
  intros w. destruct (identity_replies w) as [|[e|id] q] eqn:Hid.
  - rewrite (preserveCredentials_unanswered _ _ _ _ Hid).
    split; [reflexivity|]. exists []. split; [reflexivity|apply justified_same].
  - rewrite (preserveCredentials_identity_rejected _ _ _ _ _ _ Hid).
    split; [reflexivity|]. exists [inl e]. split; [exact Hid|apply justified_same].
  - destruct (write_fault w path) as [e|] eqn:Hw.
    + rewrite (preserveCredentials_write_fault _ _ _ _ _ _ _ Hid Hw).
      split; [reflexivity|]. exists [inr id]. split; [exact Hid|apply justified_same].
    + rewrite (preserveCredentials_saved _ _ _ _ _ _ Hid Hw).
      split; [reflexivity|]. exists [inr id]. split; [exact Hid|].
      apply justified_write; [apply justified_same|now left].
Qed.

(** One step of the search for a proof of [writes_justified]. *)
Ltac writes_step :=
  lazy beta zeta;
  first
    [ apply writes_preserveCredentials
    | apply writes_bind; [|intros ?]
    | apply writes_try_catch; [|intros ?]
    | solve [apply keeps_writes; repeat keeps_step]
    | match goal with
      | |- writes_justified _ (if ?b then _ else _) => destruct b
      end ].

Lemma writes_authFlow props :
  writes_justified (credentialsPath props) (authFlow props).
Proof.
  unfold authFlow, credentialsPath, log_info.
  apply writes_bind.
  { apply keeps_writes. destruct (negb (forceAuth props)); [apply keeps_isCi|apply keeps_ret]. }
  intros unattended. destruct unattended; [apply keeps_writes, keeps_throw|].
  apply writes_bind; [apply keeps_writes, keeps_auth|intros tokenSet].
  repeat writes_step.
Qed.

Lemma writes_login_then_continue props :
  writes_justified (credentialsPath props) (login_then_continue props).
Proof.
  unfold login_then_continue.
  apply writes_bind; [apply writes_authFlow|intros key]. apply keeps_writes, keeps_ret.
Qed.

Lemma writes_ensureAuth props :
  writes_justified (credentialsPath props) (ensureAuth props).
Proof.
  unfold ensureAuth.
  destruct (_ || help props); [apply keeps_writes, keeps_ret|].
  destruct (_ || is_auth_command props).
  { unfold log_debug. destruct (Js.truthy (apiKey props)); repeat writes_step. }
  lazy zeta. fold (credentialsPath props). fold (authProps props).
  fold (login_then_continue props).
  apply writes_bind; [apply keeps_writes, keeps_existsSync|intros present].
  destruct present.
  - unfold log_debug, log_error, log_info, parse_TokenSet.
    apply writes_bind; [apply keeps_writes, keeps_tell|intros _].
    apply writes_try_catch.
    + apply writes_bind; [apply keeps_writes, keeps_readFileSync|intros contents].
      apply writes_bind; [apply keeps_writes, keeps_tell|intros _].
      apply writes_bind; [apply keeps_writes, keeps_await|intros tokenSet].
      apply writes_bind; [apply keeps_writes, keeps_expired|intros isExpired].
      destruct isExpired; [|apply keeps_writes, keeps_ret].
      apply writes_bind; [apply keeps_writes, keeps_tell|intros _].
      apply writes_bind.
      * apply keeps_writes, keeps_try_catch; [apply keeps_refreshToken|intros err].
        repeat keeps_step.
      * intros refreshed. repeat writes_step.
    + intros e. destruct (starts_auth_flow e);
        [apply writes_login_then_continue|apply keeps_writes, keeps_throw].
  - unfold log_debug.
    apply writes_bind; [apply keeps_writes, keeps_tell|intros _].
    apply writes_login_then_continue.
Qed.

(** C5. When the identity lookup fails, [preserveCredentials] rethrows its
    error and writes nothing: the file system is as before and the only
    event is the lookup.  Whenever [preserveCredentials] changed the file
    system, the lookup had answered with a user id, and the file at [path]
    holds exactly the serialised token set with that [user_id], every other
    property being the token set's own.  And for the program as a whole:
    whatever the world, the file system that [ensureAuth] leaves is the one
    it found, up to writes to the credentials file of a token set serialised
    with a user id that the identity API answered during the run. *)
Theorem preserveCredentials_writes_after_identity
    (path : string) (credentials : TokenSet) (api : ApiClient) (w : World) :
  (forall e q, identity_replies w = inl e :: q ->
     fst (preserveCredentials path credentials api w) = Throws e /\
     fs (snd (preserveCredentials path credentials api w)) = fs w /\
     events (snd (preserveCredentials path credentials api w))
     = GetCurrentUserInfo api :: events w)
  /\
  (fs (snd (preserveCredentials path credentials api w)) <> fs w ->
     exists id q,
       identity_replies w = inr id :: q /\
       fs (snd (preserveCredentials path credentials api w))
       = <[path := Readable (stored_credential credentials id)]> (fs w) /\
       Js.get "user_id" (Js.spread_with credentials "user_id" (Js.VStr id)) = Js.VStr id /\
       forall k, k <> "user_id" ->
         Js.get k (Js.spread_with credentials "user_id" (Js.VStr id)) = Js.get k credentials)
  /\
  (forall props : AuthProps,
     Writes (credentialsPath props) w (snd (ensureAuth props w))).
Proof.
  split; [|split].
  - intros e q Hid.
    rewrite (preserveCredentials_identity_rejected _ _ _ _ _ _ Hid). now cbn.
  - intros Hchanged.
    destruct (identity_replies w) as [|[e|id] q] eqn:Hid.
    + rewrite (preserveCredentials_unanswered _ _ _ _ Hid) in Hchanged. now cbn in Hchanged.
    + rewrite (preserveCredentials_identity_rejected _ _ _ _ _ _ Hid) in Hchanged.
      now cbn in Hchanged.
    + destruct (write_fault w path) as [e|] eqn:Hw.
      * rewrite (preserveCredentials_write_fault _ _ _ _ _ _ _ Hid Hw) in Hchanged.
        now cbn in Hchanged.
      * exists id, q. rewrite (preserveCredentials_saved _ _ _ _ _ _ Hid Hw).
        split; [reflexivity|]. split; [reflexivity|]. split.
        -- apply get_set_eq.
        -- intros k Hk. apply get_set_ne. congruence.
  - intros props. apply writes_ensureAuth.
Qed.

End CredentialStore.

Lemma preserveCredentials_writes_after_identity_witness :
  let api := getApiClient (Js.VStr "tok1") "https://console.neon.tech/api/v2" in
  let before := Mock.with_file Mock.credentialsPath (Mock.stored Mock.stale) Mock.quiet in
  (let w := set_identity_replies [inl Mock.Unauthorized] before in
   let after := @preserveCredentials Mock.platform Mock.credentialsPath Mock.refreshed api w in
   fst after = Throws Mock.Unauthorized /\
   fs (snd after) = fs w /\
   events (snd after) = [GetCurrentUserInfo api])
  /\
  (let w := set_identity_replies [inr "u1"] before in
   let after := @preserveCredentials Mock.platform Mock.credentialsPath Mock.refreshed api w in
   exists id q,
     identity_replies w = inr id :: q /\
     fs (snd after)
     = <[Mock.credentialsPath := Readable (@stored_credential Mock.platform Mock.refreshed id)]>
         (fs w) /\
     Js.get "user_id" (Js.spread_with Mock.refreshed "user_id" (Js.VStr id)) = Js.VStr id /\
     forall k, k <> "user_id" ->
       Js.get k (Js.spread_with Mock.refreshed "user_id" (Js.VStr id)) = Js.get k Mock.refreshed)
  /\
  @Writes Mock.platform Mock.credentialsPath Mock.refresh_granted
    (snd (@ensureAuth Mock.platform Mock.props Mock.refresh_granted)).
Proof.
  intros api before. split; [|split].
  - intros w after.
    exact (proj1 (@preserveCredentials_writes_after_identity Mock.platform
                    Mock.credentialsPath Mock.refreshed api w)
             Mock.Unauthorized [] eq_refl).
  - intros w after.
    apply (proj1 (proj2 (@preserveCredentials_writes_after_identity Mock.platform
                           Mock.credentialsPath Mock.refreshed api w))).
    intros Hsame.
    apply (f_equal (fun f : gmap string File => f !! Mock.credentialsPath)) in Hsame.
    vm_compute in Hsame. discriminate Hsame.
  - exact (proj2 (proj2 (@preserveCredentials_writes_after_identity Mock.platform
                           Mock.credentialsPath Mock.refreshed api Mock.refresh_granted))
             Mock.props).
Defined.

(** * The credential lifecycle: reading the credentials file *)

Section Reading.
Context {P : Platform}.

Lemma starts_auth_flow_other (e : Js.error) :
  Js.code e <> Some "ENOENT" ->
  Js.includes "AUTH_REFRESH_FAILED" (Js.message e) = false ->
  starts_auth_flow e = false.
Proof.
  intros Hcode Hmsg. unfold starts_auth_flow. rewrite Hmsg, andb_false_r.
  now rewrite bool_decide_eq_false_2.
Qed.

(** What [ensureAuth] does with an error thrown by the read of the
    credentials file, or by the parse of its contents: the [catch] decides. *)
Lemma ensureAuth_read_throws props w e :
  uses_credentials_file props = true ->
  fs w !! credentialsPath props = Some (Unreadable e) ->
  ensureAuth props w =
    on_catch props e
      (emit (Log LDebug "Trying to read credentials from %s" [Js.VStr (credentialsPath props)]) w).
Proof.
  intros Hu Hfs. file_logic Hu. unfold on_catch.
  run_with ltac:(rewrite ?Hfs). destruct (starts_auth_flow e); reflexivity.
Qed.

Lemma ensureAuth_parse_throws props w contents e :
  uses_credentials_file props = true ->
  fs w !! credentialsPath props = Some (Readable contents) ->
  TokenSet_parse contents = inl e ->
  ensureAuth props w = on_catch props e (after_read props contents w).
Proof.
  intros Hu Hfs Hp. file_logic Hu. unfold on_catch.
  run_with ltac:(rewrite ?Hfs, ?Hp). destruct (starts_auth_flow e); reflexivity.
Qed.

(** X18. A read error that the [catch] classifies neither as a missing file
    (code [ENOENT]) nor as a failed refresh (a message holding
    [AUTH_REFRESH_FAILED]), a permissions error for one, is rethrown to the
    caller as it is.  The world is left with one more debug line and nothing
    else: the authentication flow is not started. *)
Theorem ensureAuth_read_error_propagates (props : AuthProps) (w : World) (e : Js.error) :
  uses_credentials_file props = true ->
  fs w !! credentialsPath props = Some (Unreadable e) ->
  Js.code e <> Some "ENOENT" ->
  Js.includes "AUTH_REFRESH_FAILED" (Js.message e) = false ->
  ensureAuth props w
  = (Throws e,
     emit (Log LDebug "Trying to read credentials from %s" [Js.VStr (credentialsPath props)]) w).
Proof.
  intros Hu Hfs Hcode Hmsg.
  rewrite (ensureAuth_read_throws _ _ _ Hu Hfs). unfold on_catch.
  now rewrite (starts_auth_flow_other _ Hcode Hmsg).
Qed.

(** C1, as amended.  When the credentials file is missing, [ensureAuth] runs
    [authFlow] and goes on with the key it returns; so it does when the file
    vanishes between the test for it and the read ([ENOENT]).  When the file
    is there and its contents do not parse, the [catch] decides by the parse
    error: an error whose code is not [ENOENT] and whose message does not
    hold [AUTH_REFRESH_FAILED] is rethrown, the world has two more debug
    lines and the authentication flow is not started; an error whose message
    holds [AUTH_REFRESH_FAILED] (or whose code is [ENOENT]) makes
    [ensureAuth] run [authFlow] as for a missing file.  Running [authFlow]
    is not the same as not failing: what [authFlow] throws, its refusal in
    an unattended context for one, reaches the caller. *)
Theorem ensureAuth_missing_or_corrupt (props : AuthProps) (w : World) :
  uses_credentials_file props = true ->
  (fs w !! credentialsPath props = None ->
     ensureAuth props w
     = login_then_continue props
         (emit (Log LDebug "Credentials file %s does not exist, starting authentication"
                  [Js.VStr (credentialsPath props)]) w))
  /\
  (forall e,
     fs w !! credentialsPath props = Some (Unreadable e) ->
     Js.code e = Some "ENOENT" ->
     ensureAuth props w
     = login_then_continue props
         (emit (Log LDebug "Trying to read credentials from %s"
                  [Js.VStr (credentialsPath props)]) w))
  /\
  (forall contents e,
     fs w !! credentialsPath props = Some (Readable contents) ->
     TokenSet_parse contents = inl e ->
     Js.code e <> Some "ENOENT" ->
     Js.includes "AUTH_REFRESH_FAILED" (Js.message e) = false ->
     ensureAuth props w = (Throws e, after_read props contents w))
  /\
  (forall contents e,
     fs w !! credentialsPath props = Some (Readable contents) ->
     TokenSet_parse contents = inl e ->
     (Js.instanceof_Error e = true /\
      Js.includes "AUTH_REFRESH_FAILED" (Js.message e) = true) \/
     Js.code e = Some "ENOENT" ->
     ensureAuth props w = login_then_continue props (after_read props contents w))
  /\
  (forall w0,
     (forceAuth props = false -> ci w0 = true ->
        login_then_continue props w0
        = (Throws (Js.Error "Cannot run interactive auth in CI"), w0)) /\
     (forall e w1,
        authFlow props w0 = (Throws e, w1) ->
        login_then_continue props w0 = (Throws e, w1)) /\
     (forall key w1,
        authFlow props w0 = (Returns key, w1) ->
        login_then_continue props w0
        = (Returns (with_apiClient (set_apiKey key props)), w1))).
Proof.
  intros Hu. split; [|split; [|split; [|split]]].
  - intros Hfs. file_logic Hu. run_with ltac:(rewrite ?Hfs). reflexivity.
  - intros e Hfs Hcode.
    rewrite (ensureAuth_read_throws _ _ _ Hu Hfs). unfold on_catch, starts_auth_flow.
    now rewrite Hcode, bool_decide_eq_true_2, orb_true_r.
  - intros contents e Hfs Hp Hcode Hmsg.
    rewrite (ensureAuth_parse_throws _ _ _ _ Hu Hfs Hp). unfold on_catch.
    now rewrite (starts_auth_flow_other _ Hcode Hmsg).
  - intros contents e Hfs Hp Hwhy.
    rewrite (ensureAuth_parse_throws _ _ _ _ Hu Hfs Hp). unfold on_catch, starts_auth_flow.
    destruct Hwhy as [[Hinst Hmsg]|Hcode].
    + now rewrite Hinst, Hmsg.
    + now rewrite Hcode, bool_decide_eq_true_2, orb_true_r.
  - intros w0. split; [|split].
    + intros Hforce Hci. unfold login_then_continue, authFlow, bind, isCi.
      rewrite Hforce. cbn [negb]. now rewrite Hci.
    + intros e w1 Hflow. unfold login_then_continue, bind. now rewrite Hflow.
    + intros key w1 Hflow. unfold login_then_continue, bind, ret. now rewrite Hflow.
Qed.

(** C2, as amended.  When the credentials file is there, parses, and the
    token set is not expired, [ensureAuth] returns with [apiKey] set to the
    stored [access_token] when that is a non-empty string (any truthy value),
    and to ['UNKNOWN'] otherwise.  The world has two more debug lines and
    nothing else: no discovery, no login, no refresh, no write. *)
Theorem ensureAuth_cached (props : AuthProps) (w : World) (contents : string) (t : TokenSet) :
  uses_credentials_file props = true ->
  fs w !! credentialsPath props = Some (Readable contents) ->
  TokenSet_parse contents = inr t ->
  TokenSet_expired (now w) t = false ->
  exists props',
    ensureAuth props w = (Returns props', after_read props contents w) /\
    apiKey props' = (if Js.truthy (access_token t) then access_token t else Js.VStr "UNKNOWN") /\
    apiClient props' = Some (getApiClient (apiKey props') (apiHost props)).
Proof.
  intros Hu Hfs Hp He.
  exists (with_apiClient (set_apiKey (Js.or (access_token t) (Js.VStr "UNKNOWN")) props)).
  split; [|split; reflexivity].
  file_logic Hu. run_with ltac:(rewrite ?Hfs, ?Hp, ?He). reflexivity.
Qed.

End Reading.

(** A permissions error on the usual path is rethrown. *)
Lemma ensureAuth_read_error_propagates_witness :
  let w := Mock.with_file Mock.credentialsPath (Unreadable Mock.EACCES) Mock.quiet in
  @ensureAuth Mock.platform Mock.props w
  = (Throws Mock.EACCES,
     emit (Log LDebug "Trying to read credentials from %s" [Js.VStr Mock.credentialsPath]) w).
Proof.
  intros w.
  apply (@ensureAuth_read_error_propagates Mock.platform Mock.props w Mock.EACCES);
    [reflexivity | vm_compute; reflexivity | discriminate | reflexivity].
Defined.

(** C4.  The code does not do what the claim says for a permissions error
    on a credentials file whose path holds [AUTH_REFRESH_FAILED].  The error
    of the read is not one of a missing file, of a corrupt file or of a
    failed refresh, and node puts the path in its message; the [catch],
    which is commented to throw any other error, finds the text in the
    message and runs the login: the browser is opened and [ensureAuth]
    returns with the key of that login, the error is not propagated. *)
Lemma ensureAuth_permission_error_starts_login :
  let e := Mock.EACCES_at Mock.sentinel_path in
  let w := Mock.with_file Mock.sentinel_path (Unreadable e)
             (set_identity_replies [inr "u1"] Mock.login_world) in
  let after := @ensureAuth Mock.platform Mock.sentinel_props w in
  @credentialsPath Mock.platform Mock.sentinel_props = Mock.sentinel_path /\
  fs w !! Mock.sentinel_path = Some (Unreadable e) /\
  Js.code e = Some "EACCES" /\
  Js.message e
  = "EACCES: permission denied, open '/home/u/AUTH_REFRESH_FAILED/credentials.json'" /\
  (exists props', fst after = Returns props' /\ apiKey props' = Js.VStr "tok1") /\
  (exists url, In (OpenBrowser url) (events (snd after))).
Proof.
  intros e w after. split; [reflexivity|]. split; [vm_compute; reflexivity|].
  split; [reflexivity|]. split; [reflexivity|]. split.
  - eexists. split; [vm_compute; reflexivity|reflexivity].
  - eexists. vm_compute. tauto.
Qed.

(** C1 fails as stated: a credentials file that does not parse makes
    [ensureAuth] throw the parse error; the log has the two debug lines of
    the read and no event of the authentication flow. *)
Lemma ensureAuth_corrupt_file_throws :
  let w := Mock.with_file Mock.credentialsPath (Readable "{not json") Mock.quiet in
  fs w !! Mock.credentialsPath = Some (Readable "{not json") /\
  @TokenSet_parse Mock.platform "{not json" = inl Mock.SyntaxError /\
  fst (@ensureAuth Mock.platform Mock.props w) = Throws Mock.SyntaxError /\
  events (snd (@ensureAuth Mock.platform Mock.props w))
  = [Log LDebug "Credentials MD5 hash: %s" [Js.VStr "md5:9"];
     Log LDebug "Trying to read credentials from %s" [Js.VStr Mock.credentialsPath]].
Proof. vm_compute. repeat split. Qed.

Lemma ensureAuth_missing_or_corrupt_witness :
  @ensureAuth Mock.platform Mock.props Mock.quiet
  = @login_then_continue Mock.platform Mock.props
      (emit (Log LDebug "Credentials file %s does not exist, starting authentication"
               [Js.VStr Mock.credentialsPath]) Mock.quiet)
  /\
  (let w := Mock.with_file Mock.credentialsPath
              (Unreadable (ENOENT Mock.credentialsPath)) Mock.quiet in
   @ensureAuth Mock.platform Mock.props w
   = @login_then_continue Mock.platform Mock.props
       (emit (Log LDebug "Trying to read credentials from %s"
                [Js.VStr Mock.credentialsPath]) w))
  /\
  (let w := Mock.with_file Mock.credentialsPath (Readable "{not json") Mock.quiet in
   @ensureAuth Mock.platform Mock.props w
   = (Throws Mock.SyntaxError, @after_read Mock.platform Mock.props "{not json" w))
  /\
  (let w := Mock.with_file Mock.credentialsPath (Readable "AUTH_REFRESH_FAILED") Mock.quiet in
   @ensureAuth Mock.quoting_platform Mock.props w
   = @login_then_continue Mock.quoting_platform Mock.props
       (@after_read Mock.quoting_platform Mock.props "AUTH_REFRESH_FAILED" w))
  /\
  @login_then_continue Mock.platform Mock.props (Mock.unattended Mock.quiet)
  = (Throws (Js.Error "Cannot run interactive auth in CI"), Mock.unattended Mock.quiet).
Proof.
  split; [|split; [|split; [|split]]].
  - apply (proj1 (@ensureAuth_missing_or_corrupt Mock.platform Mock.props Mock.quiet eq_refl)).
    reflexivity.
  - intros w.
    apply (proj1 (proj2 (@ensureAuth_missing_or_corrupt Mock.platform Mock.props w eq_refl))
             (ENOENT Mock.credentialsPath));
      [vm_compute; reflexivity | reflexivity].
  - intros w.
    apply (proj1 (proj2 (proj2
             (@ensureAuth_missing_or_corrupt Mock.platform Mock.props w eq_refl))));
      [vm_compute; reflexivity | reflexivity | discriminate | reflexivity].
  - intros w.
    refine (proj1 (proj2 (proj2 (proj2
              (@ensureAuth_missing_or_corrupt Mock.quoting_platform Mock.props w eq_refl))))
              "AUTH_REFRESH_FAILED" _ _ eq_refl (or_introl (conj eq_refl eq_refl))).
    vm_compute. reflexivity.
  - apply (proj1 (proj2 (proj2 (proj2 (proj2
             (@ensureAuth_missing_or_corrupt Mock.platform Mock.props Mock.quiet eq_refl))))
             (Mock.unattended Mock.quiet)));
      reflexivity.
Defined.

(** C2 fails as stated: with a stored [access_token] that is the empty
    string, the [apiKey] is ['UNKNOWN'], not the stored value. *)
Lemma ensureAuth_cached_empty_token :
  let t := [("access_token", Js.VStr ""); ("expires_at", Js.VNum 4600)] in
  let w := Mock.with_file Mock.credentialsPath (Mock.stored t) Mock.quiet in
  fs w !! Mock.credentialsPath = Some (Readable (Mock.stringify (Js.VObj t))) /\
  @TokenSet_parse Mock.platform (Mock.stringify (Js.VObj t)) = inr t /\
  @TokenSet_expired Mock.platform (now w) t = false /\
  exists props',
    fst (@ensureAuth Mock.platform Mock.props w) = Returns props' /\
    apiKey props' = Js.VStr "UNKNOWN" /\
    apiKey props' <> access_token t.
Proof.
  intros t w. split; [vm_compute; reflexivity|]. split; [reflexivity|]. split; [reflexivity|].
  eexists. split; [vm_compute; reflexivity|]. split; [reflexivity|]. discriminate.
Qed.

Lemma ensureAuth_cached_witness :
  let w := Mock.with_file Mock.credentialsPath (Mock.stored Mock.cached) Mock.quiet in
  exists props',
    @ensureAuth Mock.platform Mock.props w
    = (Returns props', @after_read Mock.platform Mock.props (Mock.stringify (Js.VObj Mock.cached)) w) /\
    apiKey props' = Js.VStr "tok0" /\
    apiClient props' = Some (getApiClient (apiKey props') (apiHost Mock.props)).
Proof.
  intros w.
  apply (@ensureAuth_cached Mock.platform Mock.props w
           (Mock.stringify (Js.VObj Mock.cached)) Mock.cached);
    [reflexivity | vm_compute; reflexivity | reflexivity | reflexivity].
Defined.

(** * The credential lifecycle: refreshing an expired credential *)

Section Refreshing.
Context {P : Platform}.

(** [ensureAuth] on an expired credential whose refresh fails. *)
Lemma ensureAuth_refresh_throws props w contents t err w2 :
  uses_credentials_file props = true ->
  fs w !! credentialsPath props = Some (Readable contents) ->
  TokenSet_parse contents = inr t ->
  TokenSet_expired (now w) t = true ->
  Auth.refreshToken (authProps props) t (at_refresh props contents w) = (Throws err, w2) ->
  ensureAuth props w = login_then_continue props (after_failed_refresh err w2).
Proof.
  intros Hu Hfs Hp He Hr. file_logic Hu.
  run_with ltac:(rewrite ?Hfs, ?Hp, ?He, ?Hr).
  destruct (Js.instanceof_Error err); reflexivity.
Qed.

(** [ensureAuth] on an expired credential whose refresh gives [t']: the key
    is taken from [t'], the credentials are saved with a client made of that
    key, and an error of the saving goes to the [catch]. *)
Lemma ensureAuth_refresh_returns props w contents t t' w2 :
  uses_credentials_file props = true ->
  fs w !! credentialsPath props = Some (Readable contents) ->
  TokenSet_parse contents = inr t ->
  TokenSet_expired (now w) t = true ->
  Auth.refreshToken (authProps props) t (at_refresh props contents w) = (Returns t', w2) ->
  ensureAuth props w =
    try_catch
      (run preserveCredentials (credentialsPath props) t'
             (getApiClient (Js.or (access_token t') (Js.VStr "UNKNOWN")) (apiHost props));
       ret (with_apiClient (set_apiKey (Js.or (access_token t') (Js.VStr "UNKNOWN")) props)))
      (on_catch props) w2.
Proof.
  intros Hu Hfs Hp He Hr. file_logic Hu.
  run_with ltac:(rewrite ?Hfs, ?Hp, ?He, ?Hr).
  cbn [with_apiClient set_apiKey set_apiClient apiKey apiHost].
  destruct (preserveCredentials _ _ _ _) as [[[]|e|] w3]; [reflexivity| |reflexivity].
  destruct (starts_auth_flow e); reflexivity.
Qed.

(** [authFlow] is [auth] followed by the saving, unless it refuses. *)
Lemma authFlow_after_auth (props : AuthProps) (w w1 : World) (t : TokenSet) :
  negb (forceAuth props) && ci w = false ->
  Auth.auth (authProps props) w = (Returns t, w1) ->
  authFlow props w
  = (run preserveCredentials (credentialsPath props) t
           (getApiClient (Js.or (access_token t) (Js.VStr "")) (apiHost props));
     run log_info "Auth complete" [];
     ret (Js.or (access_token t) (Js.VStr ""))) w1.
Proof.
  intros Hci Hauth. unfold authFlow. norm_world.
  destruct (forceAuth props); cbn [negb andb] in *;
    run_with ltac:(rewrite ?Hci, ?Hauth); reflexivity.
Qed.

(** C3, as amended.  When the credentials file parses, the token set is
    expired and [refreshToken] throws, [ensureAuth] logs the failure and is
    [authFlow] run in the world [w3] that this leaves, followed by the
    statements that store its key.  So [ensureAuth] returns when [authFlow]
    returns, and an error that reaches the caller is an error that [authFlow]
    threw, never the one of the refresh.  That [authFlow] returns takes more
    than a login that succeeds:
    - without [forceAuth] in an unattended context, [authFlow] refuses and
      [ensureAuth] throws that refusal: no login is started;
    - otherwise, when the login gives [t'], [ensureAuth] returns, with the
      [access_token] of [t'] as key and [t'] saved, only when the identity
      lookup answers and the write does not fail; when the identity lookup is
      rejected or the write fails, [ensureAuth] throws that error, the login
      that succeeded notwithstanding. *)
Theorem ensureAuth_refresh_failure_falls_back
    (props : AuthProps) (w : World) (contents : string) (t : TokenSet)
    (err : Js.error) (w2 : World) :
  uses_credentials_file props = true ->
  fs w !! credentialsPath props = Some (Readable contents) ->
  TokenSet_parse contents = inr t ->
  TokenSet_expired (now w) t = true ->
  Auth.refreshToken (authProps props) t (at_refresh props contents w) = (Throws err, w2) ->
  let w3 := after_failed_refresh err w2 in
  ensureAuth props w = login_then_continue props w3
  /\ (forall key w4,
        authFlow props w3 = (Returns key, w4) ->
        ensureAuth props w = (Returns (with_apiClient (set_apiKey key props)), w4))
  /\ (forall e w4,
        ensureAuth props w = (Throws e, w4) ->
        authFlow props w3 = (Throws e, w4))
  /\ (forceAuth props = false -> ci w3 = true ->
        ensureAuth props w = (Throws (Js.Error "Cannot run interactive auth in CI"), w3))
  /\ (negb (forceAuth props) && ci w3 = false ->
      forall t' w4,
        Auth.auth (authProps props) w3 = (Returns t', w4) ->
        (forall id q,
           identity_replies w3 = inr id :: q ->
           write_fault w3 (credentialsPath props) = None ->
           fst (ensureAuth props w)
           = Returns (with_apiClient
                        (set_apiKey (Js.or (access_token t') (Js.VStr "")) props)) /\
           fs (snd (ensureAuth props w))
           = <[credentialsPath props := Readable (stored_credential t' id)]> (fs w3)) /\
        (forall e q,
           identity_replies w3 = inl e :: q ->
           fst (ensureAuth props w) = Throws e /\
           fs (snd (ensureAuth props w)) = fs w3) /\
        (forall id q e,
           identity_replies w3 = inr id :: q ->
           write_fault w3 (credentialsPath props) = Some e ->
           fst (ensureAuth props w) = Throws e)).
Proof.
  intros Hu Hfs Hp He Hr w3.
  pose proof (ensureAuth_refresh_throws _ _ _ _ _ _ Hu Hfs Hp He Hr) as Heq.
  fold w3 in Heq.
  split; [exact Heq|]. rewrite Heq. split; [|split; [|split]].
  - intros key w4 Hflow. unfold login_then_continue, bind, ret. now rewrite Hflow.
  - intros e w4. unfold login_then_continue, bind, ret.
    destruct (authFlow props w3) as [[key|e'|] w'];
      intros H; inversion H; reflexivity.
  - intros Hforce Hci. unfold login_then_continue, authFlow, bind, isCi.
    rewrite Hforce. cbn [negb]. now rewrite Hci.
  - intros Hci t' w4 Hauth.
    destruct (keeps_auth (authProps props) w3) as (Hfs1 & Hw1 & Hid1).
    rewrite Hauth in Hfs1, Hw1, Hid1. cbn [snd] in Hfs1, Hw1, Hid1.
    unfold login_then_continue, bind.
    rewrite (authFlow_after_auth props w3 w4 t' Hci Hauth).
    unfold bind, log_info, tell, ret. split; [|split].
    + intros id q Hid Hw.
      rewrite (preserveCredentials_saved _ t' _ w4 id q);
        [|now rewrite Hid1|now rewrite Hw1].
      unfold saved. cbn [fst snd emits emit set_fs set_identity_replies fs].
      now rewrite Hfs1.
    + intros e q Hid.
      rewrite (preserveCredentials_identity_rejected _ t' _ w4 e q); [|now rewrite Hid1].
      now cbn.
    + intros id q e Hid Hw.
      rewrite (preserveCredentials_write_fault _ t' _ w4 id q e);
        [|now rewrite Hid1|now rewrite Hw1].
      reflexivity.
Qed.

(** C8, as amended.  When the credentials file parses, the token set is
    expired, [refreshToken] returns [t'], the identity lookup answers with a
    user id and the write does not fail, [ensureAuth] returns with [apiKey]
    set to the [access_token] of [t'] (to ['UNKNOWN'] when that is absent or
    empty), and the credentials file holds the serialisation of [t'] with its
    [user_id] set to that id and nothing else: the new contents are a
    function of [t'] and the id, the old contents take no part. *)
Theorem ensureAuth_refresh_overwrites
    (props : AuthProps) (w : World) (contents : string) (t t' : TokenSet)
    (w2 : World) (id : string) (q : list (Js.error + string)) :
  uses_credentials_file props = true ->
  fs w !! credentialsPath props = Some (Readable contents) ->
  TokenSet_parse contents = inr t ->
  TokenSet_expired (now w) t = true ->
  Auth.refreshToken (authProps props) t (at_refresh props contents w) = (Returns t', w2) ->
  identity_replies w = inr id :: q ->
  write_fault w (credentialsPath props) = None ->
  exists props' w3,
    ensureAuth props w = (Returns props', w3) /\
    apiKey props' = (if Js.truthy (access_token t') then access_token t' else Js.VStr "UNKNOWN") /\
    apiClient props' = Some (getApiClient (apiKey props') (apiHost props)) /\
    fs w3 = <[credentialsPath props := Readable (stored_credential t' id)]> (fs w) /\
    fs w3 !! credentialsPath props
    = Some (Readable (JSON_stringify (Js.spread_with t' "user_id" (Js.VStr id)))) /\
    Js.get "user_id" (Js.spread_with t' "user_id" (Js.VStr id)) = Js.VStr id /\
    (forall k, k <> "user_id" ->
       Js.get k (Js.spread_with t' "user_id" (Js.VStr id)) = Js.get k t').
Proof.
  intros Hu Hfs Hp He Hr Hid Hw.
  destruct (keeps_refreshToken (authProps props) t (at_refresh props contents w))
    as (Hfs2 & Hw2 & Hid2).
  rewrite Hr in Hfs2, Hw2, Hid2. cbn [snd at_refresh after_read emit emits fs write_fault
                                       identity_replies] in Hfs2, Hw2, Hid2.
  assert (Hid' : identity_replies w2 = inr id :: q) by (rewrite Hid2; exact Hid).
  assert (Hw' : write_fault w2 (credentialsPath props) = None) by (rewrite Hw2; exact Hw).
  exists (with_apiClient (set_apiKey (Js.or (access_token t') (Js.VStr "UNKNOWN")) props)).
  exists (saved (credentialsPath props) t'
            (getApiClient (Js.or (access_token t') (Js.VStr "UNKNOWN")) (apiHost props)) id q w2).
  split.
  { rewrite (ensureAuth_refresh_returns _ _ _ _ _ _ Hu Hfs Hp He Hr).
    unfold try_catch, bind.
    now rewrite (preserveCredentials_saved _ _ _ _ _ _ Hid' Hw'). }
  split; [reflexivity|]. split; [reflexivity|].
  assert (Hnew : fs (saved (credentialsPath props) t'
                       (getApiClient (Js.or (access_token t') (Js.VStr "UNKNOWN")) (apiHost props))
                       id q w2)
                 = <[credentialsPath props := Readable (stored_credential t' id)]> (fs w)).
  { unfold saved. cbn [emits emit set_fs set_identity_replies fs]. now rewrite Hfs2. }
  split; [exact Hnew|]. split.
  { rewrite Hnew. apply lookup_insert_eq. }
  split; [apply get_set_eq|]. intros k Hk. apply get_set_ne. congruence.
Qed.


End Refreshing.

(** The refresh is refused; the browser login that follows gives
    [Mock.refreshed] and the identity API knows the user. *)
Lemma ensureAuth_refresh_failure_falls_back_witness :
  let contents := Mock.stringify (Js.VObj Mock.stale) in
  let w2 := snd (Auth.refreshToken (authProps Mock.props) Mock.stale
                   (@at_refresh Mock.platform Mock.props contents Mock.refresh_refused)) in
  let w3 := after_failed_refresh Mock.invalid_grant w2 in
  fst (@ensureAuth Mock.platform Mock.props Mock.refresh_refused)
  = Returns (with_apiClient (set_apiKey (Js.VStr "tok1") Mock.props)) /\
  fs (snd (@ensureAuth Mock.platform Mock.props Mock.refresh_refused))
  = <[Mock.credentialsPath := Readable (@stored_credential Mock.platform Mock.refreshed "u1")]>
      (fs w3).
Proof.
  intros contents w2 w3.
  refine (proj1 (proj2 (proj2 (proj2 (proj2
            (@ensureAuth_refresh_failure_falls_back Mock.platform
               Mock.props Mock.refresh_refused contents Mock.stale Mock.invalid_grant w2
               eq_refl _ eq_refl eq_refl _))))
            eq_refl Mock.refreshed
            (snd (@Auth.auth Mock.platform (authProps Mock.props) w3)) _)
            "u1" [] eq_refl eq_refl).
  - vm_compute. reflexivity.
  - vm_compute. reflexivity.
  - vm_compute. reflexivity.
Defined.

(** C3 fails as stated: the refresh is refused, the login that
    [ensureAuth] falls back to succeeds ([auth] returns a token set), and
    [ensureAuth] does not complete: the identity API answers 401 to the
    lookup that precedes the saving, and that error is thrown to the caller.
    Nothing is written. *)
Lemma ensureAuth_fallback_login_not_saved :
  let w := set_identity_replies [inl Mock.Unauthorized]
             (set_refresh_replies [inl Mock.invalid_grant]
                (Mock.browser_returns Mock.refreshed Mock.expired_world)) in
  let contents := Mock.stringify (Js.VObj Mock.stale) in
  let refresh := Auth.refreshToken (authProps Mock.props) Mock.stale
                   (@at_refresh Mock.platform Mock.props contents w) in
  let w3 := after_failed_refresh Mock.invalid_grant (snd refresh) in
  fs w !! Mock.credentialsPath = Some (Readable contents) /\
  @TokenSet_parse Mock.platform contents = inr Mock.stale /\
  @TokenSet_expired Mock.platform (now w) Mock.stale = true /\
  fst refresh = Throws Mock.invalid_grant /\
  fst (@Auth.auth Mock.platform (authProps Mock.props) w3) = Returns Mock.refreshed /\
  fst (@ensureAuth Mock.platform Mock.props w) = Throws Mock.Unauthorized /\
  fs (snd (@ensureAuth Mock.platform Mock.props w)) = fs w.
Proof.
  intros w contents refresh w3.
  split; [vm_compute; reflexivity|]. split; [reflexivity|]. split; [reflexivity|].
  split; [reflexivity|]. split; [vm_compute; reflexivity|].
  split; vm_compute; reflexivity.
Qed.


(** C8 fails as stated: the refresh succeeds, the identity lookup does not,
    and [ensureAuth] throws the lookup's error; the credentials file still
    holds the old contents. *)
Lemma ensureAuth_refresh_not_persisted :
  let w := Mock.refresh_granted_identity_down in
  let old := Mock.stringify (Js.VObj Mock.stale) in
  fs w !! Mock.credentialsPath = Some (Readable old) /\
  @TokenSet_parse Mock.platform old = inr Mock.stale /\
  @TokenSet_expired Mock.platform (now w) Mock.stale = true /\
  fst (Auth.refreshToken (authProps Mock.props) Mock.stale
         (@at_refresh Mock.platform Mock.props old w)) = Returns Mock.refreshed /\
  fst (@ensureAuth Mock.platform Mock.props w) = Throws Mock.Unauthorized /\
  fs (snd (@ensureAuth Mock.platform Mock.props w)) !! Mock.credentialsPath
  = Some (Readable old).
Proof. vm_compute. repeat split. Qed.

Lemma ensureAuth_refresh_overwrites_witness :
  exists props' w3,
    @ensureAuth Mock.platform Mock.props Mock.refresh_granted = (Returns props', w3) /\
    apiKey props' = Js.VStr "tok1" /\
    apiClient props' = Some (getApiClient (apiKey props') (apiHost Mock.props)) /\
    fs w3 = <[Mock.credentialsPath :=
                Readable (@stored_credential Mock.platform Mock.refreshed "u1")]>
              (fs Mock.refresh_granted) /\
    fs w3 !! Mock.credentialsPath
    = Some (Readable (@JSON_stringify Mock.platform
                        (Js.spread_with Mock.refreshed "user_id" (Js.VStr "u1")))) /\
    Js.get "user_id" (Js.spread_with Mock.refreshed "user_id" (Js.VStr "u1")) = Js.VStr "u1" /\
    (forall k, k <> "user_id" ->
       Js.get k (Js.spread_with Mock.refreshed "user_id" (Js.VStr "u1"))
       = Js.get k Mock.refreshed).
Proof.
  refine (@ensureAuth_refresh_overwrites Mock.platform Mock.props Mock.refresh_granted
            (Mock.stringify (Js.VObj Mock.stale)) Mock.stale Mock.refreshed
            (snd (Auth.refreshToken (authProps Mock.props) Mock.stale
                    (@at_refresh Mock.platform Mock.props
                       (Mock.stringify (Js.VObj Mock.stale)) Mock.refresh_granted)))
            "u1" [] eq_refl _ eq_refl eq_refl _ eq_refl eq_refl).
  - vm_compute. reflexivity.
  - vm_compute. reflexivity.
Defined.


(** * The loopback receiver *)

Section Receiver.
Context {P : Platform}.
Variables (c : Client) (port : N) (checks : CallbackChecks).

Local Abbreviation on_request := (Auth.on_request c port checks).
Local Abbreviation on_event := (Auth.on_event c port checks).
Local Abbreviation serve := (Auth.serve c port checks).
Local Abbreviation state_after := (server_after c port checks).

Lemma serve_app evs1 evs2 s :
  serve (evs1 ++ evs2) s =
    (fst (serve evs2 (fst (serve evs1 s))),
     snd (serve evs1 s) ++ snd (serve evs2 (fst (serve evs1 s)))).
Proof.
  revert s. induction evs1 as [|ev evs1 IH]; intros s; cbn [app Auth.serve fst snd].
  - now destruct (serve evs2 s).
  - destruct (on_event ev s) as [s1 out1]. rewrite IH.
    destruct (serve evs1 s1) as [s2 out2]. cbn [fst snd].
    now rewrite app_assoc.
Qed.

Lemma serve_cons ev evs s :
  fst (serve (ev :: evs) s) = fst (serve evs (fst (on_event ev s))).
Proof.
  cbn [Auth.serve]. destruct (on_event ev s) as [s1 out1]. cbn [fst].
  now destruct (serve evs s1).
Qed.

Lemma server_after_app evs more :
  state_after (evs ++ more) = fst (serve more (state_after evs)).
Proof. unfold server_after. now rewrite serve_app. Qed.

(** ** The end of the process *)

(** Nothing runs once the process has ended. *)
Lemma on_event_exited ev s : Auth.exited s = true -> on_event ev s = (s, []).
Proof.
  intros He. destruct ev as [request|req reply]; cbn [Auth.on_event].
  - unfold Auth.on_request. now rewrite He.
  - unfold Auth.on_exchanged. now rewrite He.
Qed.

Lemma serve_exited evs s : Auth.exited s = true -> serve evs s = (s, []).
Proof.
  intros He. induction evs as [|ev evs IH]; [reflexivity|].
  cbn [Auth.serve]. now rewrite (on_event_exited ev s He), IH.
Qed.

(** A process that runs after [evs ++ more] ran after [evs]. *)
Lemma serve_running evs more s :
  Auth.exited (fst (serve (evs ++ more) s)) = false ->
  Auth.exited (fst (serve evs s)) = false.
Proof.
  rewrite serve_app. cbn [fst]. intros Hrun.
  destruct (Auth.exited (fst (serve evs s))) eqn:He; [|reflexivity].
  rewrite (serve_exited more _ He) in Hrun. cbn [fst] in Hrun. congruence.
Qed.

(** ** What the handler does with one request *)

(** A request that does not begin with [/callback] leaves the promise, the
    suspended handlers and the listener as they are. *)
Lemma on_request_not_callback request s :
  Auth.not_callback (url request) = true ->
  Auth.resolved (fst (on_request request s)) = Auth.resolved s /\
  Auth.awaiting (fst (on_request request s)) = Auth.awaiting s /\
  Auth.listening (fst (on_request request s)) = Auth.listening s.
Proof.
  intros Hnc. unfold Auth.on_request. rewrite Hnc.
  destruct (Auth.exited s); cbn; auto.
Qed.

Lemma on_request_404 request s :
  Auth.not_callback (url request) = true ->
  Auth.exited s = false ->
  on_request request s
  = (Auth.mkServer (Auth.listening s) (S (Auth.accepted s)) (Auth.awaiting s)
       (Auth.resolved s) false,
     [Respond (Auth.accepted s) 404 [] None]).
Proof.
  intros Hnc He. unfold Auth.on_request. now rewrite Hnc, He.
Qed.

(** A request that begins with [/callback] and whose parameters can be read
    starts an exchange and suspends its handler. *)
Lemma on_request_callback request params s :
  Auth.not_callback (url request) = false ->
  client_callbackParams request = inr params ->
  Auth.exited s = false ->
  on_request request s
  = (Auth.mkServer (Auth.listening s) (S (Auth.accepted s))
       (Auth.awaiting s ++ [Auth.accepted s]) (Auth.resolved s) false,
     [Log LInfo ("Callback received: " +:+ default "" (url request)) [];
      CallbackExchange (Auth.accepted s) c (Auth.REDIRECT_URI port) params checks]).
Proof.
  intros Hnc Hp He. unfold Auth.on_request. now rewrite Hnc, Hp, He.
Qed.

(** The exchange of a suspended handler succeeds: the handler answers,
    resolves and closes. *)
Lemma on_exchanged_succeeds req t s :
  In req (Auth.awaiting s) ->
  Auth.exited s = false ->
  on_event (Exchanged req (inr t)) s
  = (Auth.mkServer false (Auth.accepted s)
       (List.filter (fun r => negb (Nat.eqb req r)) (Auth.awaiting s))
       (Some (default t (Auth.resolved s))) false,
     [Respond req 200 [("Content-Type", "text/html")] (Some callback_html);
      Resolve t;
      ServerClose]).
Proof.
  intros Hin He. cbn [Auth.on_event]. unfold Auth.on_exchanged. rewrite He.
  assert (Hex : existsb (Nat.eqb req) (Auth.awaiting s) = true).
  { apply existsb_exists. exists req. split; [exact Hin|apply Nat.eqb_refl]. }
  rewrite Hex. cbn [negb orb]. now destruct (Auth.resolved s).
Qed.

(** No request settles the promise. *)
Lemma on_request_resolved request s :
  Auth.resolved (fst (on_request request s)) = Auth.resolved s.
Proof.
  unfold Auth.on_request.
  destruct (Auth.exited s); [reflexivity|].
  destruct (Auth.not_callback (url request)); [reflexivity|].
  now destruct (client_callbackParams request).
Qed.

(** ** The promise *)

(** Once set, the value of the promise stays. *)
Lemma on_event_resolved_stays ev s t :
  Auth.resolved s = Some t -> Auth.resolved (fst (on_event ev s)) = Some t.
Proof.
  intros Hr. destruct ev as [request|req [e|t']]; cbn [Auth.on_event].
  - now rewrite on_request_resolved.
  - unfold Auth.on_exchanged. now destruct (_ || _).
  - unfold Auth.on_exchanged. destruct (_ || _); cbn; [exact Hr|]. now rewrite Hr.
Qed.

Lemma serve_resolved_stays evs s t :
  Auth.resolved s = Some t -> Auth.resolved (fst (serve evs s)) = Some t.
Proof.
  revert s. induction evs as [|ev evs IH]; intros s Hr; [exact Hr|].
  rewrite serve_cons. apply IH. now apply on_event_resolved_stays.
Qed.

(** The only step that sets the promise is the settlement of an exchange
    that a suspended handler awaits. *)
Lemma on_event_resolves ev s t :
  Auth.resolved s = None ->
  Auth.resolved (fst (on_event ev s)) = Some t ->
  exists req,
    ev = Exchanged req (inr t) /\ In req (Auth.awaiting s) /\ Auth.exited s = false.
Proof.
  intros Hnone Hsome. destruct ev as [request|req [e|t']]; cbn [Auth.on_event] in Hsome.
  - rewrite on_request_resolved in Hsome. congruence.
  - unfold Auth.on_exchanged in Hsome. destruct (_ || _); cbn in Hsome; congruence.
  - unfold Auth.on_exchanged in Hsome.
    destruct (Auth.exited s); cbn [orb] in Hsome; [cbn in Hsome; congruence|].
    destruct (existsb (Nat.eqb req) (Auth.awaiting s)) eqn:Hin; cbn in Hsome; [|congruence].
    rewrite Hnone in Hsome. injection Hsome as ->.
    exists req. split; [reflexivity|]. split; [|reflexivity].
    apply existsb_exists in Hin as (r & Hr & Heq).
    apply Nat.eqb_eq in Heq. now subst r.
Qed.

(** A server that [server.close()] was not called on has not settled the
    promise. *)
Lemma on_event_open_unresolved ev s :
  (Auth.listening s = true -> Auth.resolved s = None) ->
  Auth.listening (fst (on_event ev s)) = true ->
  Auth.resolved (fst (on_event ev s)) = None.
Proof.
  intros Hinv. destruct ev as [request|req [e|t']]; cbn [Auth.on_event].
  - rewrite on_request_resolved. unfold Auth.on_request.
    destruct (Auth.exited s); [exact Hinv|].
    destruct (Auth.not_callback (url request)); [exact Hinv|].
    destruct (client_callbackParams request); exact Hinv.
  - unfold Auth.on_exchanged. destruct (_ || _); cbn; exact Hinv.
  - unfold Auth.on_exchanged. destruct (_ || _); cbn; [exact Hinv|discriminate].
Qed.

Lemma serve_open_unresolved evs s :
  (Auth.listening s = true -> Auth.resolved s = None) ->
  Auth.listening (fst (serve evs s)) = true ->
  Auth.resolved (fst (serve evs s)) = None.
Proof.
  revert s. induction evs as [|ev evs IH]; intros s Hinv; [exact Hinv|].
  rewrite serve_cons. apply IH. now apply on_event_open_unresolved.
Qed.

(** ** The suspended handlers *)

(** A handler is suspended only for a request that began with [/callback]. *)
Lemma serve_awaiting evs s req :
  In req (Auth.awaiting (fst (serve evs s))) ->
  In req (Auth.awaiting s) \/
  exists pre request u post,
    evs = pre ++ Request request :: post /\
    Auth.accepted (fst (serve pre s)) = req /\
    url request = Some u /\
    Js.startsWith "/callback" u = true.
Proof.
  revert s. induction evs as [|ev evs IH]; intros s Hin; [now left|].
  rewrite serve_cons in Hin.
  apply IH in Hin as [Hin|(pre & request & u & post & -> & Hacc & Hu & Hsw)].
  - destruct ev as [request|r reply]; cbn [Auth.on_event] in Hin.
    + unfold Auth.on_request in Hin.
      destruct (Auth.exited s); cbn [fst] in Hin; [now left|].
      destruct (Auth.not_callback (url request)) eqn:Hnc;
        cbn [fst Auth.awaiting] in Hin; [now left|].
      destruct (client_callbackParams request) as [e|params];
        cbn [fst Auth.awaiting] in Hin; [now left|].
      apply in_app_or in Hin as [Hin|[<-|[]]]; [now left|].
      unfold Auth.not_callback in Hnc.
      destruct (url request) as [u|] eqn:Hu; [|discriminate].
      apply negb_false_iff in Hnc.
      right. exists [], request, u, evs. cbn [app Auth.serve fst]. auto.
    + left. unfold Auth.on_exchanged in Hin.
      destruct (_ || _); [exact Hin|].
      destruct reply; cbn in Hin; apply filter_In in Hin; tauto.
  - right. exists (ev :: pre), request, u, post. rewrite !serve_cons. now cbn.
Qed.

(** A suspended handler stays suspended as long as its exchange has not
    settled. *)
Lemma on_event_still_awaiting ev s req :
  In req (Auth.awaiting s) ->
  (forall reply, ev <> Exchanged req reply) ->
  In req (Auth.awaiting (fst (on_event ev s))).
Proof.
  intros Hin Hev. destruct ev as [request|r reply]; cbn [Auth.on_event].
  - unfold Auth.on_request.
    destruct (Auth.exited s); [exact Hin|].
    destruct (Auth.not_callback (url request)); [exact Hin|].
    destruct (client_callbackParams request); cbn [fst Auth.awaiting]; [exact Hin|].
    apply in_or_app. now left.
  - assert (Hne : r <> req) by (intros ->; now apply (Hev reply)).
    unfold Auth.on_exchanged. destruct (_ || _); [exact Hin|].
    assert (Hkeep : In req (List.filter (fun r0 => negb (Nat.eqb r r0)) (Auth.awaiting s))).
    { apply filter_In. split; [exact Hin|]. now apply negb_true_iff, Nat.eqb_neq. }
    now destruct reply.
Qed.

Lemma serve_still_awaiting mid s req :
  In req (Auth.awaiting s) ->
  (forall reply, ~ In (Exchanged req reply) mid) ->
  In req (Auth.awaiting (fst (serve mid s))).
Proof.
  revert s. induction mid as [|ev mid IH]; intros s Hin Hmid; [exact Hin|].
  rewrite serve_cons. apply IH.
  - apply on_event_still_awaiting; [exact Hin|].
    intros reply ->. apply (Hmid reply). now left.
  - intros reply Hr. apply (Hmid reply). now right.
Qed.

(** The event that settles the promise, when it is settled. *)
Lemma serve_resolves evs s t :
  Auth.resolved s = None ->
  Auth.resolved (fst (serve evs s)) = Some t ->
  exists pre req post,
    evs = pre ++ Exchanged req (inr t) :: post /\
    Auth.resolved (fst (serve pre s)) = None /\
    In req (Auth.awaiting (fst (serve pre s))) /\
    Auth.exited (fst (serve pre s)) = false.
Proof.
  revert s. induction evs as [|ev evs IH]; intros s Hnone Hsome.
  - cbn in Hsome. congruence.
  - rewrite serve_cons in Hsome.
    destruct (Auth.resolved (fst (on_event ev s))) as [t1|] eqn:Hstep.
    + rewrite (serve_resolved_stays _ _ _ Hstep) in Hsome. injection Hsome as ->.
      destruct (on_event_resolves _ _ _ Hnone Hstep) as (req & -> & Hin & Hrun).
      exists [], req, evs. now cbn.
    + destruct (IH _ Hstep Hsome) as (pre & req & post & -> & Hn & Hin & Hrun).
      exists (ev :: pre), req, post. rewrite !serve_cons. now cbn.
Qed.

(** What the handler does at one event is part of what the server does. *)
Lemma serve_step_output pre ev post s x :
  In x (snd (on_event ev (fst (serve pre s)))) ->
  In x (snd (serve (pre ++ ev :: post) s)).
Proof.
  intros Hin. rewrite serve_app. cbn [snd]. apply in_or_app. right.
  cbn [Auth.serve]. destruct (on_event ev _) as [s1 out1].
  destruct (serve post s1) as [s2 out2]. cbn [snd] in *.
  apply in_or_app. now left.
Qed.

Lemma resolves_at_unique evs i j :
  resolves_at c port checks evs i -> resolves_at c port checks evs j -> i = j.
Proof.
  assert (Hlt : forall a b, (a < b)%nat ->
            resolves_at c port checks evs a -> resolves_at c port checks evs b -> False).
  { intros a b Hab [_ Ha] [Hb _].
    destruct (Auth.resolved (state_after (firstn (S a) evs))) as [t|] eqn:Hr; [|congruence].
    replace b with (S a + (b - S a))%nat in Hb by lia.
    rewrite <- take_take_drop, server_after_app in Hb.
    rewrite (serve_resolved_stays _ _ _ Hr) in Hb. discriminate. }
  intros Hi Hj. destruct (Nat.lt_trichotomy i j) as [H|[H|H]]; [|exact H|].
  - destruct (Hlt _ _ H Hi Hj).
  - destruct (Hlt _ _ H Hj Hi).
Qed.

(** ** The exchanges *)

(** Every exchange that the server starts is checked against the [checks]
    it was set up with, and nothing of what it does asks for an
    authorization url. *)
Lemma serve_exchanges evs s ev :
  In ev (snd (serve evs s)) ->
  match ev with
  | CallbackExchange _ c' uri _ ch => c' = c /\ uri = Auth.REDIRECT_URI port /\ ch = checks
  | AuthorizationUrl _ _ | OpenBrowser _ => False
  | _ => True
  end.
Proof.
  revert s. induction evs as [|e evs IH]; intros s Hin; [destruct Hin|].
  cbn [Auth.serve] in Hin.
  destruct (on_event e s) as [s1 out1] eqn:Hstep.
  destruct (serve evs s1) as [s2 out2] eqn:Hrest. cbn [snd] in Hin.
  apply in_app_or in Hin as [Hin|Hin].
  - destruct e as [request|req reply]; cbn [Auth.on_event] in Hstep.
    + unfold Auth.on_request in Hstep.
      destruct (Auth.exited s); [injection Hstep as <- <-; destruct Hin|].
      destruct (Auth.not_callback (url request)); [injection Hstep as <- <-|].
      * destruct Hin as [<-|[]]. exact I.
      * destruct (client_callbackParams request); injection Hstep as <- <-.
        -- destruct Hin as [<-|[<-|[]]]; exact I.
        -- destruct Hin as [<-|[<-|[]]]; [exact I|]. now repeat split.
    + unfold Auth.on_exchanged in Hstep.
      destruct (_ || _); [injection Hstep as <- <-; destruct Hin|].
      destruct reply; injection Hstep as <- <-.
      * destruct Hin as [<-|[]]. exact I.
      * destruct Hin as [<-|[<-|[<-|[]]]]; exact I.
  - apply (IH s1). now rewrite Hrest.
Qed.

(** A request that begins with [/callback], whose parameters can be read
    and that reaches the handler while the process runs, has its exchange
    started, with the [checks] of the server. *)
Lemma serve_starts_exchange pre request post params s :
  Auth.not_callback (url request) = false ->
  client_callbackParams request = inr params ->
  Auth.exited (fst (serve pre s)) = false ->
  In (CallbackExchange (Auth.accepted (fst (serve pre s))) c (Auth.REDIRECT_URI port)
        params checks)
     (snd (serve (pre ++ Request request :: post) s)).
Proof.
  intros Hnc Hp He. rewrite serve_app. cbn [snd]. apply in_or_app. right.
  cbn [Auth.serve Auth.on_event].
  rewrite (on_request_callback request params _ Hnc Hp He).
  destruct (serve post _) as [s2 out2]. cbn [snd app]. right. now left.
Qed.

(** C6, as amended.  In the state [s] that any sequence of requests and
    exchange settlements leaves the server in:
    - a request whose url does not begin with [/callback] never settles the
      promise nor suspends a handler, and is answered 404 (as long as the
      process runs);
    - a request whose url begins with [/callback] and whose parameters can
      be read has its exchange started; when that exchange succeeds, whatever
      was served in between, the request is answered 200 with the callback
      page, [resolve] is called with the token set, which settles the promise
      unless it was settled before, and [server.close()] is called;
    - at most one event settles the promise;
    - when the promise is settled with [t], it was settled by the exchange
      of a request whose url begins with [/callback], [server.close()] has
      been called, and the promise keeps [t] whatever comes next.
    The handler does not test whether the server was closed: that no request
    is served after [server.close()] is the part of node, not of this
    code. *)
Theorem loopback_receiver (evs : list ServerEvent) :
  let s := state_after evs in
  (forall request, Auth.not_callback (url request) = true ->
     Auth.resolved (fst (on_request request s)) = Auth.resolved s /\
     Auth.awaiting (fst (on_request request s)) = Auth.awaiting s /\
     (Auth.exited s = false ->
        snd (on_request request s) = [Respond (Auth.accepted s) 404 [] None]))
  /\
  (forall request params mid t,
     Auth.not_callback (url request) = false ->
     client_callbackParams request = inr params ->
     (forall reply, ~ In (Exchanged (Auth.accepted s) reply) mid) ->
     let req := Auth.accepted s in
     let s1 := state_after (evs ++ Request request :: mid) in
     Auth.exited s1 = false ->
     snd (on_request request s)
     = [Log LInfo ("Callback received: " +:+ default "" (url request)) [];
        CallbackExchange req c (Auth.REDIRECT_URI port) params checks] /\
     snd (on_event (Exchanged req (inr t)) s1)
     = [Respond req 200 [("Content-Type", "text/html")] (Some callback_html);
        Resolve t;
        ServerClose] /\
     Auth.listening (fst (on_event (Exchanged req (inr t)) s1)) = false /\
     Auth.resolved (fst (on_event (Exchanged req (inr t)) s1))
     = Some (default t (Auth.resolved s1)))
  /\
  (forall i j, resolves_at c port checks evs i -> resolves_at c port checks evs j -> i = j)
  /\
  (forall t, Auth.resolved s = Some t ->
     (exists pre req post pre1 request u post1,
        evs = pre ++ Exchanged req (inr t) :: post /\
        Auth.resolved (state_after pre) = None /\
        pre = pre1 ++ Request request :: post1 /\
        Auth.accepted (state_after pre1) = req /\
        url request = Some u /\
        Js.startsWith "/callback" u = true) /\
     Auth.listening s = false /\
     (forall more, Auth.resolved (state_after (evs ++ more)) = Some t)).
Proof.
  intros s. split; [|split; [|split]].
  - intros request Hnc.
    destruct (on_request_not_callback request s Hnc) as (Hr & Ha & _).
    split; [exact Hr|]. split; [exact Ha|].
    intros He. now rewrite (on_request_404 request s Hnc He).
  - intros request params mid t Hnc Hp Hmid req s1 Hrun.
    assert (Hs : Auth.exited s = false).
    { subst s1. unfold server_after in Hrun. now apply serve_running in Hrun. }
    pose proof (on_request_callback request params s Hnc Hp Hs) as Hreq.
    assert (Hin : In req (Auth.awaiting s1)).
    { subst s1. change (evs ++ Request request :: mid) with (evs ++ [Request request] ++ mid).
      rewrite app_assoc, server_after_app. apply serve_still_awaiting; [|exact Hmid].
      rewrite server_after_app. fold s. cbn [Auth.serve Auth.on_event].
      rewrite Hreq. cbn [fst Auth.awaiting]. apply in_or_app. right. now left. }
    rewrite Hreq, (on_exchanged_succeeds req t s1 Hin Hrun).
    now cbn [fst snd Auth.listening Auth.resolved].
  - apply resolves_at_unique.
  - intros t Ht.
    assert (Hclosed : Auth.listening s = false).
    { destruct (Auth.listening s) eqn:Hl; [|reflexivity].
      assert (Auth.resolved s = None); [|congruence].
      apply serve_open_unresolved; [reflexivity|exact Hl]. }
    split; [|split; [exact Hclosed|]].
    + destruct (serve_resolves evs Auth.started t eq_refl Ht)
        as (pre & req & post & -> & Hnone & Hin & _).
      apply serve_awaiting
        in Hin as [[]|(pre1 & request & u & post1 & -> & Hacc & Hu & Hsw)].
      exists (pre1 ++ Request request :: post1), req, post, pre1, request, u, post1.
      now repeat split.
    + intros more. rewrite server_after_app. now apply serve_resolved_stays.
Qed.

End Receiver.

(** C6 fails as stated: a request to the path [/callbackfoo], which is not
    the callback path, is not answered 404; its exchange is started and,
    when that succeeds, the promise is settled. *)
Lemma loopback_other_path_resolves :
  let u := "/callbackfoo?code=abc&state=r0" in
  pathname u = "/callbackfoo" /\
  pathname u <> "/callback" /\
  @Auth.serve Mock.platform Mock.client 40123 Mock.checks
    [Request (Mock.GET u); Exchanged 0 (inr Mock.refreshed)] Auth.started
  = ({| Auth.listening := false; Auth.accepted := 1; Auth.awaiting := [];
        Auth.resolved := Some Mock.refreshed; Auth.exited := false |},
     [Log LInfo "Callback received: /callbackfoo?code=abc&state=r0" [];
      CallbackExchange 0 Mock.client "http://127.0.0.1:40123/callback"
        [("code", Js.VStr "abc"); ("state", Js.VStr "r0")] Mock.checks;
      Respond 0 200 [("Content-Type", "text/html")] (Some "<html>ok</html>");
      Resolve Mock.refreshed;
      ServerClose]).
Proof. intros u. split; [reflexivity|]. split; [discriminate|reflexivity]. Qed.

(** The browser asks for [/favicon.ico], comes back with the code, asks for
    the icon again, and the exchange succeeds. *)
Lemma loopback_receiver_witness :
  let icon := Mock.GET "/favicon.ico" in
  let back := Mock.GET "/callback?code=abc&state=r0" in
  let before := [Request icon] in
  let s1 := @server_after Mock.platform Mock.client 40123 Mock.checks
              (before ++ Request back :: [Request icon]) in
  let evs := before ++ Request back :: [Request icon] ++ [Exchanged 1 (inr Mock.refreshed)] in
  let s := @server_after Mock.platform Mock.client 40123 Mock.checks evs in
  snd (@Auth.on_request Mock.platform Mock.client 40123 Mock.checks icon
         (@server_after Mock.platform Mock.client 40123 Mock.checks []))
  = [Respond 0 404 [] None] /\
  (snd (@Auth.on_request Mock.platform Mock.client 40123 Mock.checks back
          (@server_after Mock.platform Mock.client 40123 Mock.checks before))
   = [Log LInfo "Callback received: /callback?code=abc&state=r0" [];
      CallbackExchange 1 Mock.client "http://127.0.0.1:40123/callback"
        [("code", Js.VStr "abc"); ("state", Js.VStr "r0")] Mock.checks] /\
   snd (@Auth.on_event Mock.platform Mock.client 40123 Mock.checks
          (Exchanged 1 (inr Mock.refreshed)) s1)
   = [Respond 1 200 [("Content-Type", "text/html")] (Some "<html>ok</html>");
      Resolve Mock.refreshed;
      ServerClose] /\
   Auth.listening (fst (@Auth.on_event Mock.platform Mock.client 40123 Mock.checks
                          (Exchanged 1 (inr Mock.refreshed)) s1)) = false /\
   Auth.resolved (fst (@Auth.on_event Mock.platform Mock.client 40123 Mock.checks
                         (Exchanged 1 (inr Mock.refreshed)) s1))
   = Some Mock.refreshed) /\
  (forall i, @resolves_at Mock.platform Mock.client 40123 Mock.checks evs i -> i = 3%nat) /\
  Auth.listening s = false /\
  (forall more,
     Auth.resolved (@server_after Mock.platform Mock.client 40123 Mock.checks (evs ++ more))
     = Some Mock.refreshed).
Proof.
  intros icon back before s1 evs s. split; [|split; [|split]].
  - apply (proj1 (@loopback_receiver Mock.platform Mock.client 40123 Mock.checks []));
      reflexivity.
  - refine (proj1 (proj2 (@loopback_receiver Mock.platform Mock.client 40123 Mock.checks before))
              back [("code", Js.VStr "abc"); ("state", Js.VStr "r0")] [Request icon]
              Mock.refreshed eq_refl eq_refl _ eq_refl).
    intros reply [Hin|[]]. discriminate Hin.
  - intros i Hi.
    apply (proj1 (proj2 (proj2
             (@loopback_receiver Mock.platform Mock.client 40123 Mock.checks evs)))
             i 3%nat Hi).
    split; [reflexivity|discriminate].
  - destruct (proj2 (proj2 (proj2
                (@loopback_receiver Mock.platform Mock.client 40123 Mock.checks evs)))
                Mock.refreshed eq_refl) as (_ & Hclosed & Hstays).
    split; [exact Hclosed | exact Hstays].
Defined.

(** * PKCE *)

Section Pkce.
Context {P : Platform}.

(** C9. In a login attempt that gets past discovery, the state and the code
    verifier are the next two values of the random source, drawn by this
    call.  The one authorization url asked for carries the S256 challenge
    that [generators.codeChallenge] derives from that verifier.  Every
    request that begins with [/callback], whose parameters can be read and
    that reaches the handler while the process runs, has its code-for-token
    exchange started with that same verifier (and state), and no exchange
    of the attempt is given another. *)
Theorem auth_pkce (props : Auth.AuthProps) (w : World) (iss : Issuer)
    (q : list (Js.error + Issuer)) :
  discover_replies w = inr iss :: q ->
  let state := random w (drawn w) in
  let verifier := random w (S (drawn w)) in
  let client := auth_client props iss (ephemeral_port w) in
  let checks := {| check_code_verifier := verifier; check_state := state |} in
  let w' := snd (Auth.auth props w) in
  exists out,
    events w'
    = rev out ++
      [Log LInfo ("Listening on port " +:+ decimal (ephemeral_port w)) [];
       OpenBrowser (client_authorizationUrl client (auth_parameters state verifier));
       AuthorizationUrl client (auth_parameters state verifier);
       Listen (ephemeral_port w);
       Discover (Auth.oauthHost props);
       Log LInfo "Discovering oauth server" []] ++ events w /\
    code_challenge (auth_parameters state verifier) = generators_codeChallenge verifier /\
    code_challenge_method (auth_parameters state verifier) = "S256" /\
    (forall pre request post params,
       inbound w = pre ++ Request request :: post ->
       Auth.not_callback (url request) = false ->
       client_callbackParams request = inr params ->
       Auth.exited (server_after client (ephemeral_port w) checks pre) = false ->
       In (CallbackExchange
             (Auth.accepted (server_after client (ephemeral_port w) checks pre))
             client (Auth.REDIRECT_URI (ephemeral_port w)) params
             {| check_code_verifier := verifier; check_state := state |})
          out) /\
    (forall ev, In ev out ->
       match ev with
       | CallbackExchange _ _ _ _ checks =>
           check_code_verifier checks = verifier /\ check_state checks = state
       | AuthorizationUrl _ _ | OpenBrowser _ => False
       | _ => True
       end) /\
    drawn w' = S (S (drawn w)).
Proof.
  intros Hd state verifier client checks w'.
  exists (snd (Auth.serve client (ephemeral_port w) checks (inbound w) Auth.started)).
  subst w'. unfold Auth.auth, Auth.Issuer_discover, Auth.server_listen,
    Auth.generators_state, Auth.generators_codeVerifier, Auth.generators_random,
    Auth.await_callback.
  run_with ltac:(rewrite ?Hd).
  fold state verifier. fold (auth_client props iss (ephemeral_port w)). fold client.
  fold checks.
  destruct (Auth.serve client _ _ _ _) as [s out] eqn:Hserve. norm_world.
  split; [reflexivity|]. split; [reflexivity|]. split; [reflexivity|].
  split; [|split; [|reflexivity]].
  - intros pre request post params Hin Hnc Hp Hrun.
    pose proof (serve_starts_exchange client (ephemeral_port w) checks
                  pre request post params Auth.started Hnc Hp Hrun) as Hex.
    rewrite <- Hin, Hserve in Hex. exact Hex.
  - intros ev Hin.
    pose proof (serve_exchanges client (ephemeral_port w) checks
                  (inbound w) Auth.started ev) as Hev.
    rewrite Hserve in Hev. specialize (Hev Hin).
    destruct ev; try exact Hev. destruct Hev as (_ & _ & ->). now split.
Qed.

End Pkce.

(** The browser asks for an icon and comes back with the code: the exchange
    of its request, the second that the server accepts, is given the
    verifier [r1] whose challenge was sent. *)
Lemma auth_pkce_witness :
  let w := Mock.browser_returns Mock.refreshed (set_discover_replies [inr Mock.issuer] Mock.quiet) in
  let props := {| Auth.oauthHost := "https://oauth2.neon.tech"; Auth.clientId := "neonctl" |} in
  let w' := snd (@Auth.auth Mock.platform props w) in
  exists out,
    events w'
    = rev out ++
      [Log LInfo "Listening on port 40123" [];
       OpenBrowser (@client_authorizationUrl Mock.platform Mock.client
                      (@auth_parameters Mock.platform "r0" "r1"));
       AuthorizationUrl Mock.client (@auth_parameters Mock.platform "r0" "r1");
       Listen 40123;
       Discover "https://oauth2.neon.tech";
       Log LInfo "Discovering oauth server" []] ++ [] /\
    code_challenge (@auth_parameters Mock.platform "r0" "r1") = "S256:r1" /\
    code_challenge_method (@auth_parameters Mock.platform "r0" "r1") = "S256" /\
    In (CallbackExchange 1 Mock.client "http://127.0.0.1:40123/callback"
          [("code", Js.VStr "abc"); ("state", Js.VStr "r0")]
          {| check_code_verifier := "r1"; check_state := "r0" |})
       out /\
    (forall ev, In ev out ->
       match ev with
       | CallbackExchange _ _ _ _ checks =>
           check_code_verifier checks = "r1" /\ check_state checks = "r0"
       | AuthorizationUrl _ _ | OpenBrowser _ => False
       | _ => True
       end) /\
    drawn w' = 2%nat.
Proof.
  intros w props w'.
  destruct (@auth_pkce Mock.platform props w Mock.issuer [] eq_refl)
    as (out & Hevents & Hchallenge & Hmethod & Hstarted & Hall & Hdrawn).
  exists out.
  split; [exact Hevents|]. split; [exact Hchallenge|]. split; [exact Hmethod|].
  split; [|split; [exact Hall|exact Hdrawn]].
  exact (Hstarted [Request (Mock.GET "/favicon.ico")]
           (Mock.GET "/callback?code=abc&state=r0")
           [Exchanged 1 (inr Mock.refreshed)]
           [("code", Js.VStr "abc"); ("state", Js.VStr "r0")]
           eq_refl eq_refl eq_refl eq_refl).
Defined.

(** * Further properties: the entry points *)

Section EntryPoints.
Context {P : Platform}.

(** [ensureAuth] without a command, or with [--help]. *)
Lemma ensureAuth_help_is_inert (props : AuthProps) (w : World) :
  (length (positional props) =? 0)%nat || help props = true ->
  ensureAuth props w = (Returns props, w).
Proof. intros Hc. unfold ensureAuth. now rewrite Hc. Qed.

(** [ensureAuth] with a command and an explicit API key, or with the command [auth]. *)
Lemma ensureAuth_skips_credentials (props : AuthProps) (w : World) :
  (length (positional props) =? 0)%nat || help props = false ->
  Js.truthy (apiKey props) || is_auth_command props = true ->
  ensureAuth props w
  = (Returns (with_apiClient props),
     if Js.truthy (apiKey props)
     then emit (Log LDebug "using an API key to authorize requests" []) w
     else w).
Proof.
  intros Hcmd Hkey. unfold ensureAuth. rewrite Hcmd, Hkey.
  destruct (Js.truthy (apiKey props)); reflexivity.
Qed.

(** X1. When [ensureAuth] does not get as far as the credentials file (no
    command, [--help], an explicit API key, or the command [auth]), it
    returns, with the key it was given: the file system, the replies of the
    network and the random source are as they were, whatever the state of
    the credentials file, and the log has at most the debug line about the
    key.  With a command and without [--help], the API client is the one of
    the given key. *)
Theorem ensureAuth_without_credentials (props : AuthProps) (w : World) :
  uses_credentials_file props = false ->
  exists props' w',
    ensureAuth props w = (Returns props', w') /\
    apiKey props' = apiKey props /\
    fs w' = fs w /\
    discover_replies w' = discover_replies w /\
    refresh_replies w' = refresh_replies w /\
    identity_replies w' = identity_replies w /\
    inbound w' = inbound w /\
    drawn w' = drawn w /\
    (events w' = events w \/
     events w' = Log LDebug "using an API key to authorize requests" [] :: events w) /\
    ((length (positional props) =? 0)%nat || help props = false ->
       apiClient props' = Some (getApiClient (apiKey props) (apiHost props))).
Proof.
  intros Hu. unfold uses_credentials_file in Hu.
  destruct ((length (positional props) =? 0)%nat || help props) eqn:Hcmd.
  - exists props, w. rewrite (ensureAuth_help_is_inert props w Hcmd).
    repeat split; auto. discriminate.
  - cbn [negb andb] in Hu. apply negb_false_iff in Hu.
    rewrite (ensureAuth_skips_credentials props w Hcmd Hu).
    destruct (Js.truthy (apiKey props)); do 2 eexists;
      (split; [reflexivity|]); repeat split; auto.
Qed.

(** X2. The [catch] of [ensureAuth] goes by the text of the message: an
    [Error] thrown by the read of the credentials file or by the parse of its
    contents whose message holds [AUTH_REFRESH_FAILED] starts the
    authentication flow, whatever its cause and its code. *)
Theorem ensureAuth_sentinel_in_message (props : AuthProps) (w : World) (e : Js.error) :
  uses_credentials_file props = true ->
  Js.instanceof_Error e = true ->
  Js.includes "AUTH_REFRESH_FAILED" (Js.message e) = true ->
  (fs w !! credentialsPath props = Some (Unreadable e) ->
     ensureAuth props w
     = login_then_continue props
         (emit (Log LDebug "Trying to read credentials from %s"
                  [Js.VStr (credentialsPath props)]) w))
  /\
  (forall contents,
     fs w !! credentialsPath props = Some (Readable contents) ->
     TokenSet_parse contents = inl e ->
     ensureAuth props w = login_then_continue props (after_read props contents w)).
Proof.
  intros Hu Herr Hmsg.
  assert (Hflow : starts_auth_flow e = true).
  { unfold starts_auth_flow. now rewrite Herr, Hmsg. }
  split.
  - intros Hfs. rewrite (ensureAuth_read_throws _ _ _ Hu Hfs). unfold on_catch.
    now rewrite Hflow.
  - intros contents Hfs Hp. rewrite (ensureAuth_parse_throws _ _ _ _ Hu Hfs Hp).
    unfold on_catch. now rewrite Hflow.
Qed.

(** X3. For the command [auth], [ensureAuth] leaves the login to the
    handler: the handler run on the props that [ensureAuth] returns is the
    handler run on the props and in the world that [ensureAuth] was given. *)
Theorem handler_after_ensureAuth (props : AuthProps) (w : World) :
  is_auth_command props = true ->
  help props = false ->
  Js.truthy (apiKey props) = false ->
  (do props' <- ensureAuth props; handler props') w = handler props w.
Proof.
  intros Hauth Hhelp Hkey.
  assert (Hcmd : (length (positional props) =? 0)%nat || help props = false).
  { rewrite Hhelp, orb_false_r. unfold is_auth_command in Hauth.
    now destruct (positional props). }
  assert (Hskip : Js.truthy (apiKey props) || is_auth_command props = true)
    by (rewrite Hauth; apply orb_true_r).
  unfold bind at 1. rewrite (ensureAuth_skips_credentials props w Hcmd Hskip), Hkey.
  reflexivity.
Qed.

End EntryPoints.

(** * Further properties: the login attempt *)

Section LoginAttempt.
Context {P : Platform}.

(** The request handler logs, answers, starts exchanges, settles the promise
    and closes the server; it makes no call of the kinds of [is_call]. *)
Lemma serve_kinds c port checks evs s ev :
  In ev (snd (Auth.serve c port checks evs s)) -> is_call (kind_of ev) = false.
Proof.
  revert s. induction evs as [|e evs IH]; intros s Hin; [destruct Hin|].
  cbn [Auth.serve] in Hin.
  destruct (Auth.on_event c port checks e s) as [s1 out1] eqn:Hstep.
  destruct (Auth.serve c port checks evs s1) as [s2 out2] eqn:Hrest. cbn [snd] in Hin.
  apply in_app_or in Hin as [Hin|Hin].
  - destruct e as [request|req reply]; cbn [Auth.on_event] in Hstep.
    + unfold Auth.on_request in Hstep.
      destruct (Auth.exited s); [injection Hstep as <- <-; destruct Hin|].
      destruct (Auth.not_callback (url request)); [injection Hstep as <- <-|].
      * destruct Hin as [<-|[]]. reflexivity.
      * destruct (client_callbackParams request); injection Hstep as <- <-;
          destruct Hin as [<-|[<-|[]]]; reflexivity.
    + unfold Auth.on_exchanged in Hstep.
      destruct (_ || _); [injection Hstep as <- <-; destruct Hin|].
      destruct reply; injection Hstep as <- <-.
      * destruct Hin as [<-|[]]. reflexivity.
      * destruct Hin as [<-|[<-|[<-|[]]]]; reflexivity.
  - apply (IH s1). now rewrite Hrest.
Qed.

(** [auth] when discovery fails. *)
Lemma auth_discovery_rejected (props : Auth.AuthProps) (w : World) (e : Js.error)
    (q : list (Js.error + Issuer)) :
  discover_replies w = inl e :: q ->
  Auth.auth props w
  = (Throws e,
     set_discover_replies q
       (emit (Discover (Auth.oauthHost props))
          (emit (Log LInfo "Discovering oauth server" []) w))).
Proof.
  intros Hd. unfold Auth.auth, Auth.Issuer_discover.
  run_with ltac:(rewrite ?Hd). reflexivity.
Qed.

(** [auth] once the issuer is found: its outcome is the promise of the
    server, and its events are those of the set-up followed by those of the
    server. *)
Lemma auth_run (props : Auth.AuthProps) (w : World) (iss : Issuer)
    (q : list (Js.error + Issuer)) :
  discover_replies w = inr iss :: q ->
  let state := random w (drawn w) in
  let verifier := random w (S (drawn w)) in
  let client := auth_client props iss (ephemeral_port w) in
  let checks := {| check_code_verifier := verifier; check_state := state |} in
  let served := Auth.serve client (ephemeral_port w) checks (inbound w) Auth.started in
  fst (Auth.auth props w)
  = match Auth.resolved (fst served) with Some t => Returns t | None => Pending end /\
  events (snd (Auth.auth props w))
  = rev (snd served) ++
    [Log LInfo ("Listening on port " +:+ decimal (ephemeral_port w)) [];
     OpenBrowser (client_authorizationUrl client (auth_parameters state verifier));
     AuthorizationUrl client (auth_parameters state verifier);
     Listen (ephemeral_port w);
     Discover (Auth.oauthHost props);
     Log LInfo "Discovering oauth server" []] ++ events w.
Proof.
  intros Hd state verifier client checks served.
  unfold Auth.auth, Auth.Issuer_discover, Auth.server_listen,
    Auth.generators_state, Auth.generators_codeVerifier, Auth.generators_random,
    Auth.await_callback.
  run_with ltac:(rewrite ?Hd).
  fold state verifier. fold (auth_client props iss (ephemeral_port w)). fold client.
  fold checks. fold served.
  destruct served as [s out]. norm_world. split; reflexivity.
Qed.

(** X4. When the discovery of the issuer fails, [auth] throws the error of
    the discovery and has done nothing else: no listener is started, no
    browser opened, nothing drawn from the random source, and the requests
    that may arrive are left unserved. *)
Theorem auth_discovery_failure (props : Auth.AuthProps) (w : World) (e : Js.error)
    (q : list (Js.error + Issuer)) :
  discover_replies w = inl e :: q ->
  fst (Auth.auth props w) = Throws e /\
  events (snd (Auth.auth props w))
  = [Discover (Auth.oauthHost props); Log LInfo "Discovering oauth server" []] ++ events w /\
  drawn (snd (Auth.auth props w)) = drawn w /\
  inbound (snd (Auth.auth props w)) = inbound w.
Proof.
  intros Hd. rewrite (auth_discovery_rejected props w e q Hd). now cbn.
Qed.

(** X5. [auth] returns only a token set that the exchange of a request it
    served gave.  When [auth] returns [t], the issuer was found, a request
    whose url begins with [/callback] reached the server and its exchange
    settled with [t]; and before [auth] returns, the handler has responded
    to that request with status 200 and the callback page, and has called
    [resolve(t)] and [server.close()]. *)
Theorem auth_returns_exchanged (props : Auth.AuthProps) (w : World) (t : TokenSet) :
  fst (Auth.auth props w) = Returns t ->
  exists iss q pre request u mid req post,
    discover_replies w = inr iss :: q /\
    inbound w = pre ++ Request request :: mid ++ Exchanged req (inr t) :: post /\
    url request = Some u /\
    Js.startsWith "/callback" u = true /\
    req = Auth.accepted
            (server_after (auth_client props iss (ephemeral_port w)) (ephemeral_port w)
               {| check_code_verifier := random w (S (drawn w));
                  check_state := random w (drawn w) |} pre) /\
    In (Respond req 200 [("Content-Type", "text/html")] (Some callback_html))
       (events (snd (Auth.auth props w))) /\
    In (Resolve t) (events (snd (Auth.auth props w))) /\
    In ServerClose (events (snd (Auth.auth props w))).
Proof.
  intros Hret.
  destruct (discover_replies w) as [|[e|iss] q] eqn:Hd.
  - exfalso. revert Hret. unfold Auth.auth, Auth.Issuer_discover.
    run_with ltac:(rewrite ?Hd). discriminate.
  - rewrite (auth_discovery_rejected props w e q Hd) in Hret. discriminate.
  - destruct (auth_run props w iss q Hd) as [Hout Hev].
    set (client := auth_client props iss (ephemeral_port w)) in *.
    set (checks := {| check_code_verifier := random w (S (drawn w));
                      check_state := random w (drawn w) |}) in *.
    rewrite Hout in Hret.
    destruct (Auth.resolved _) as [t0|] eqn:Hres; [|discriminate].
    injection Hret as ->.
    destruct (serve_resolves client (ephemeral_port w) checks (inbound w)
                Auth.started t eq_refl Hres) as (pre & req & post & Hin & _ & Haw & Hrun).
    pose proof (on_exchanged_succeeds client (ephemeral_port w) checks req t _
                  Haw Hrun) as Hstep.
    apply serve_awaiting
      in Haw as [[]|(pre1 & request & u & mid & -> & Hacc & Hu & Hsw)].
    exists iss, q, pre1, request, u, mid, req, post.
    split; [reflexivity|]. split; [now rewrite Hin, <- app_assoc|].
    split; [exact Hu|]. split; [exact Hsw|]. split; [now rewrite <- Hacc|].
    assert (Hlog : forall x,
              In x [Respond req 200 [("Content-Type", "text/html")] (Some callback_html);
                    Resolve t; ServerClose] ->
              In x (events (snd (Auth.auth props w)))).
    { intros x Hx. rewrite Hev. apply in_or_app. left. apply in_rev. rewrite rev_involutive.
      rewrite Hin. apply serve_step_output. now rewrite Hstep. }
    split; [|split]; apply Hlog; cbn; tauto.
Qed.

(** X6. In a login attempt, the port that the server listens on, the
    redirect uri that the client is registered with and the redirect uri
    that every code-for-token exchange is given are one and the same:
    [REDIRECT_URI] of the port that the system assigned. *)
Theorem auth_redirect_uri (props : Auth.AuthProps) (w : World) (iss : Issuer)
    (q : list (Js.error + Issuer)) :
  discover_replies w = inr iss :: q ->
  exists new,
    events (snd (Auth.auth props w)) = new ++ events w /\
    In (Listen (ephemeral_port w)) new /\
    forall ev, In ev new ->
      match ev with
      | Listen port => port = ephemeral_port w
      | AuthorizationUrl c _ =>
          redirect_uris (client_metadata c) = Some [Auth.REDIRECT_URI (ephemeral_port w)]
      | CallbackExchange _ c uri _ _ =>
          uri = Auth.REDIRECT_URI (ephemeral_port w) /\
          redirect_uris (client_metadata c) = Some [uri]
      | _ => True
      end.
Proof.
  intros Hd. destruct (auth_run props w iss q Hd) as [_ Hev].
  set (client := auth_client props iss (ephemeral_port w)) in *.
  set (checks := {| check_code_verifier := random w (S (drawn w));
                    check_state := random w (drawn w) |}) in *.
  set (out := snd (Auth.serve client (ephemeral_port w) checks (inbound w) Auth.started)) in *.
  eexists. split; [rewrite Hev, app_assoc; reflexivity|]. split.
  - apply in_or_app. right. cbn. tauto.
  - intros ev Hin. apply in_app_or in Hin as [Hin|Hin].
    + apply in_rev in Hin.
      pose proof (serve_exchanges client (ephemeral_port w) checks (inbound w)
                    Auth.started ev Hin) as Hx.
      pose proof (serve_kinds client (ephemeral_port w) checks (inbound w)
                    Auth.started ev Hin) as Hk.
      destruct ev; try exact I; try discriminate Hk.
      destruct Hx as (-> & -> & _). now split.
    + cbn in Hin.
      destruct Hin as [<-|[<-|[<-|[<-|[<-|[<-|[]]]]]]]; try exact I; reflexivity.
Qed.

(** X7. When the discovery of the issuer fails, [refreshToken] throws the
    error of the discovery without making the refresh call: the replies of
    the token endpoint are untouched and no refresh is in the log. *)
Theorem refreshToken_discovery_failure (props : Auth.AuthProps) (t : TokenSet)
    (w : World) (e : Js.error) (q : list (Js.error + Issuer)) :
  discover_replies w = inl e :: q ->
  fst (Auth.refreshToken props t w) = Throws e /\
  refresh_replies (snd (Auth.refreshToken props t w)) = refresh_replies w /\
  events (snd (Auth.refreshToken props t w))
  = [Discover (Auth.oauthHost props); Log LInfo "Discovering oauth server" []] ++ events w.
Proof.
  intros Hd. unfold Auth.refreshToken, Auth.Issuer_discover.
  run_with ltac:(rewrite ?Hd). now cbn.
Qed.

End LoginAttempt.

(** * Further properties: the authentication flow *)

Section AuthenticationFlow.
Context {P : Platform}.

(** X8. When [authFlow] is not refused, the login gives the token set [t],
    the identity API answers with a user id and the write does not fail,
    [authFlow] returns the [access_token] of [t] (the empty string in its
    place when there is none): the credentials file holds [t] with that user
    id, written with mode [0o700], and the last line of the log is
    [Auth complete]. *)
Theorem authFlow_saves_login (props : AuthProps) (w w1 : World) (t : TokenSet)
    (id : string) (q : list (Js.error + string)) :
  negb (forceAuth props) && ci w = false ->
  Auth.auth (authProps props) w = (Returns t, w1) ->
  identity_replies w = inr id :: q ->
  write_fault w (credentialsPath props) = None ->
  fst (authFlow props w) = Returns (Js.or (access_token t) (Js.VStr "")) /\
  fs (snd (authFlow props w))
  = <[credentialsPath props := Readable (stored_credential t id)]> (fs w) /\
  events (snd (authFlow props w))
  = [Log LInfo "Auth complete" [];
     Log LDebug "Credentials MD5 hash: %s" [Js.VStr (md5hash (stored_credential t id))];
     Log LInfo "Saved credentials to %s" [Js.VStr (credentialsPath props)];
     WriteFile (credentialsPath props) (stored_credential t id) 448;
     GetCurrentUserInfo (getApiClient (Js.or (access_token t) (Js.VStr "")) (apiHost props))]
    ++ events w1.
Proof.
  intros Hci Hauth Hid Hw.
  destruct (keeps_auth (authProps props) w) as (Hfs1 & Hw1 & Hid1).
  rewrite Hauth in Hfs1, Hw1, Hid1. cbn [snd] in Hfs1, Hw1, Hid1.
  rewrite (authFlow_after_auth props w w1 t Hci Hauth).
  unfold bind, log_info, tell, ret.
  rewrite (preserveCredentials_saved _ t _ w1 id q);
    [|now rewrite Hid1|now rewrite Hw1].
  unfold saved. cbn [fst snd emits emit set_fs set_identity_replies fs events app].
  now rewrite Hfs1.
Qed.

(** X9. A login that succeeds is lost when its saving fails.  When the
    login gives a token set and the identity lookup is rejected, [authFlow]
    throws that error: nothing is written, and nothing is logged after the
    login.  When the identity lookup answers and the write throws,
    [authFlow] throws the error of the write, and neither
    [Saved credentials] nor [Auth complete] is logged. *)
Theorem authFlow_login_not_saved (props : AuthProps) (w w1 : World) (t : TokenSet)
    (e : Js.error) :
  negb (forceAuth props) && ci w = false ->
  Auth.auth (authProps props) w = (Returns t, w1) ->
  ((exists q, identity_replies w = inl e :: q) ->
     fst (authFlow props w) = Throws e /\
     fs (snd (authFlow props w)) = fs w /\
     events (snd (authFlow props w))
     = GetCurrentUserInfo
         (getApiClient (Js.or (access_token t) (Js.VStr "")) (apiHost props))
       :: events w1)
  /\
  ((exists id q, identity_replies w = inr id :: q /\
                 write_fault w (credentialsPath props) = Some e) ->
     fst (authFlow props w) = Throws e /\
     exists new,
       events (snd (authFlow props w)) = new ++ events w1 /\
       forall l fmt args, ~ In (Log l fmt args) new).
Proof.
  intros Hci Hauth.
  destruct (keeps_auth (authProps props) w) as (Hfs1 & Hw1 & Hid1).
  rewrite Hauth in Hfs1, Hw1, Hid1. cbn [snd] in Hfs1, Hw1, Hid1.
  rewrite (authFlow_after_auth props w w1 t Hci Hauth).
  unfold bind, log_info, tell, ret. split.
  - intros (q & Hid).
    rewrite (preserveCredentials_identity_rejected _ t _ w1 e q); [|now rewrite Hid1].
    now cbn.
  - intros (id & q & Hid & Hw).
    rewrite (preserveCredentials_write_fault _ t _ w1 id q e);
      [|now rewrite Hid1|now rewrite Hw1].
    split; [reflexivity|].
    exists [GetCurrentUserInfo
              (getApiClient (Js.or (access_token t) (Js.VStr "")) (apiHost props))].
    split; [reflexivity|]. intros l fmt args [Hin|[]]. discriminate Hin.
Qed.

(** X10. What [preserveCredentials] writes, [ensureAuth] reads back.  In any
    later world in which the credentials file is the one a successful
    [preserveCredentials] left, [JSON.parse] gives back the object that was
    serialised, and the token set has not expired, [ensureAuth] returns with
    the [access_token] that was saved as its key (['UNKNOWN'] in its place
    when there is none), without any call to the outside. *)
Theorem saved_credentials_are_reused (props : AuthProps) (w w2 : World) (t : TokenSet)
    (api : ApiClient) (id : string) (q : list (Js.error + string)) :
  uses_credentials_file props = true ->
  identity_replies w = inr id :: q ->
  write_fault w (credentialsPath props) = None ->
  fs w2 !! credentialsPath props
  = fs (snd (preserveCredentials (credentialsPath props) t api w)) !! credentialsPath props ->
  TokenSet_parse (stored_credential t id) = inr (Js.spread_with t "user_id" (Js.VStr id)) ->
  TokenSet_expired (now w2) (Js.spread_with t "user_id" (Js.VStr id)) = false ->
  ensureAuth props w2
  = (Returns (with_apiClient (set_apiKey (Js.or (access_token t) (Js.VStr "UNKNOWN")) props)),
     after_read props (stored_credential t id) w2).
Proof.
  intros Hu Hid Hw Hsame Hparse Hfresh.
  rewrite (preserveCredentials_saved _ t api w id q Hid Hw) in Hsame.
  unfold saved in Hsame. cbn [snd emits emit set_fs fs] in Hsame.
  rewrite lookup_insert_eq in Hsame.
  assert (Htok : access_token (Js.spread_with t "user_id" (Js.VStr id)) = access_token t).
  { unfold access_token, Js.spread_with. apply get_set_ne. discriminate. }
  file_logic Hu.
  run_with ltac:(rewrite ?Hsame, ?Hparse, ?Hfresh).
  now rewrite Htok.
Qed.

(** ** The execution context is read by the refusal only *)

Lemma ignores_ret {A} (a : A) : ignores_ci (ret a).
Proof. now intros b w. Qed.

Lemma ignores_tell (ev : Event) : ignores_ci (tell ev).
Proof. now intros b w. Qed.

Lemma ignores_bind {A B} (m : M A) (k : A -> M B) :
  ignores_ci m -> (forall a, ignores_ci (k a)) -> ignores_ci (bind m k).
Proof.
  intros Hm Hk b w. unfold bind. rewrite (Hm b w).
  destruct (m w) as [[a|e|] w1]; cbn [fst snd]; [apply Hk|reflexivity|reflexivity].
Qed.

Lemma ignores_Issuer_discover host : ignores_ci (Auth.Issuer_discover host).
Proof.
  intros b w. unfold Auth.Issuer_discover. cbn [discover_replies set_ci].
  now destruct (discover_replies w) as [|[e|iss] q].
Qed.

Lemma ignores_await_callback c port checks : ignores_ci (Auth.await_callback c port checks).
Proof.
  intros b w. unfold Auth.await_callback. cbn [inbound set_ci].
  now destruct (Auth.serve c port checks (inbound w) Auth.started).
Qed.

Lemma ignores_auth ap : ignores_ci (Auth.auth ap).
Proof.
  unfold Auth.auth, log_info, Auth.generators_state, Auth.generators_codeVerifier.
  repeat (lazy beta zeta;
          first [ apply ignores_bind; [|intros ?]
                | apply ignores_tell
                | apply ignores_Issuer_discover
                | apply ignores_await_callback
                | (intros b w; reflexivity) ]).
Qed.

Lemma ignores_preserveCredentials path t api : ignores_ci (preserveCredentials path t api).
Proof.
  unfold preserveCredentials, log_info, log_debug.
  apply ignores_bind.
  - intros b w. unfold getCurrentUserInfo. cbn [identity_replies set_ci].
    now destruct (identity_replies w) as [|[e|id] q].
  - intros id. lazy zeta. apply ignores_bind.
    + intros b w. unfold writeFileSync. cbn [write_fault set_ci].
      now destruct (write_fault w path).
    + intros _. apply ignores_bind; [apply ignores_tell|intros _; apply ignores_tell].
Qed.

(** X11. With [forceAuth], [authFlow] does in an unattended context what it
    does in an attended one: the same outcome, and the same world up to the
    context itself. *)
Theorem authFlow_forced_ignores_ci (props : AuthProps) (b : bool) (w : World) :
  forceAuth props = true ->
  authFlow props (set_ci b w) = (fst (authFlow props w), set_ci b (snd (authFlow props w))).
Proof.
  intros Hforce. revert b w. change (ignores_ci (authFlow props)).
  unfold authFlow, log_info. rewrite Hforce. cbn [negb].
  apply ignores_bind; [apply ignores_ret|intros unattended].
  destruct unattended.
  - intros b w. reflexivity.
  - apply ignores_bind; [apply ignores_auth|intros tokenSet]. lazy zeta.
    apply ignores_bind; [apply ignores_preserveCredentials|intros _].
    apply ignores_bind; [apply ignores_tell|intros _]. apply ignores_ret.
Qed.

End AuthenticationFlow.

(** * Further properties: the calls of one invocation *)

Section CallsOfARun.
Context {P : Platform}.

Lemma occurrences_app k (a b : list Event) :
  occurrences k (a ++ b) = (occurrences k a + occurrences k b)%nat.
Proof. unfold occurrences. now rewrite List.filter_app, length_app. Qed.

Lemma occurrences_none k (l : list Event) :
  (forall ev, In ev l -> kind_of ev <> k) -> occurrences k l = 0%nat.
Proof.
  unfold occurrences. induction l as [|ev l IH]; intros H; [reflexivity|]. cbn.
  rewrite bool_decide_eq_false_2 by (apply H; now left).
  apply IH. intros ev' Hin. apply H. now right.
Qed.

Lemma Calls_same k w w' :
  ci w' = ci w -> events w' = events w -> Calls k 0 w w'.
Proof. intros Hci Hev. split; [exact Hci|]. exists []. now rewrite Hev. Qed.

Lemma Calls_emit k ev w w' :
  ci w' = ci w -> events w' = ev :: events w -> Calls k (one k (kind_of ev)) w w'.
Proof.
  intros Hci Hev. split; [exact Hci|]. exists [ev]. split; [exact Hev|].
  unfold occurrences, one. cbn. now destruct (bool_decide _).
Qed.

Lemma Calls_trans k a b w1 w2 w3 :
  Calls k a w1 w2 -> Calls k b w2 w3 -> Calls k (a + b) w1 w3.
Proof.
  intros (Hc12 & n12 & He12 & Hn12) (Hc23 & n23 & He23 & Hn23).
  split; [congruence|]. exists (n23 ++ n12). split.
  - now rewrite He23, He12, app_assoc.
  - rewrite occurrences_app. lia.
Qed.

Lemma Calls_weaken k a b w w' : (a <= b)%nat -> Calls k a w w' -> Calls k b w w'.
Proof. intros Hab (Hc & new & He & Hn). split; [exact Hc|]. exists new. split; [exact He|lia]. Qed.

Lemma calls_weaken {A} u k a b (m : M A) : (a <= b)%nat -> calls u k a m -> calls u k b m.
Proof. intros Hab Hm w Hg. apply Calls_weaken with a; auto. Qed.

Lemma calls_ret {A} u k (a : A) : calls u k 0 (ret a).
Proof. intros w _. now apply Calls_same. Qed.

Lemma calls_throw {A} u k (e : Js.error) : calls u k 0 (@throw A e).
Proof. intros w _. now apply Calls_same. Qed.

Lemma calls_await {A} u k (r : option (Js.error + A)) : calls u k 0 (await r).
Proof. intros w _. destruct r as [[e|a]|]; now apply Calls_same. Qed.

Lemma calls_tell u k (ev : Event) : calls u k (one k (kind_of ev)) (tell ev).
Proof. intros w _. now apply Calls_emit. Qed.

Lemma calls_bind {A B} u k a b n (m : M A) (f : A -> M B) :
  calls u k a m -> (forall x, calls u k b (f x)) -> (a + b <= n)%nat ->
  calls u k n (bind m f).
Proof.
  intros Hm Hf Hn w Hg. unfold bind. specialize (Hm w Hg).
  destruct (m w) as [[x|e|] w1]; cbn [snd] in *;
    [|apply Calls_weaken with a; [lia|exact Hm]..].
  apply Calls_weaken with (a + b)%nat; [exact Hn|].
  apply Calls_trans with w1; [exact Hm|]. apply Hf.
  intros Hu. destruct Hm as [Hci _]. rewrite Hci. now apply Hg.
Qed.

Lemma calls_try_catch {A} u k a b n (m : M A) (h : Js.error -> M A) :
  calls u k a m -> (forall e, calls u k b (h e)) -> (a + b <= n)%nat ->
  calls u k n (try_catch m h).
Proof.
  intros Hm Hh Hn w Hg. unfold try_catch. specialize (Hm w Hg).
  destruct (m w) as [[x|e|] w1]; cbn [snd] in *;
    [apply Calls_weaken with a; [lia|exact Hm]| |apply Calls_weaken with a; [lia|exact Hm]].
  apply Calls_weaken with (a + b)%nat; [exact Hn|].
  apply Calls_trans with w1; [exact Hm|]. apply Hh.
  intros Hu. destruct Hm as [Hci _]. rewrite Hci. now apply Hg.
Qed.

(** Logging is no call. *)
Lemma calls_log u k l fmt args :
  is_call k = true -> calls u k 0 (tell (Log l fmt args)).
Proof.
  intros Hk. apply calls_weaken with (one k (kind_of (Log l fmt args))); [|apply calls_tell].
  now destruct k.
Qed.

Lemma calls_Issuer_discover u k host : calls u k (one k KDiscover) (Auth.Issuer_discover host).
Proof.
  intros w _. unfold Auth.Issuer_discover.
  destruct (discover_replies w) as [|[e|iss] q];
    now apply (Calls_emit k (Discover host)).
Qed.

Lemma calls_client_refresh u k c t : calls u k (one k KRefresh) (Auth.client_refresh c t).
Proof.
  intros w _. unfold Auth.client_refresh.
  destruct (refresh_replies w) as [|[e|t'] q];
    now apply (Calls_emit k (Refresh c t)).
Qed.

Lemma calls_server_listen u k : calls u k (one k KListen) Auth.server_listen.
Proof. intros w _. now apply (Calls_emit k (Listen (ephemeral_port w))). Qed.

Lemma calls_generators_random u k : calls u k 0 Auth.generators_random.
Proof. intros w _. now apply Calls_same. Qed.

Lemma calls_await_callback u k c port checks :
  is_call k = true -> calls u k 0 (Auth.await_callback c port checks).
Proof.
  intros Hk w _. unfold Auth.await_callback.
  destruct (Auth.serve c port checks (inbound w) Auth.started) as [s out] eqn:Hs.
  split; [reflexivity|]. exists (rev out). split; [reflexivity|].
  rewrite occurrences_none; [lia|]. intros ev Hin Heq. apply in_rev in Hin.
  pose proof (serve_kinds c port checks (inbound w) Auth.started ev) as Hnot.
  rewrite Hs in Hnot. specialize (Hnot Hin). congruence.
Qed.

Lemma calls_getCurrentUserInfo u k api :
  calls u k (one k KGetCurrentUserInfo) (getCurrentUserInfo api).
Proof.
  intros w _. unfold getCurrentUserInfo.
  destruct (identity_replies w) as [|[e|id] q];
    now apply (Calls_emit k (GetCurrentUserInfo api)).
Qed.

Lemma calls_writeFileSync u k path contents mode :
  calls u k (one k KWriteFile) (writeFileSync path contents mode).
Proof.
  intros w _. unfold writeFileSync. destruct (write_fault w path).
  - apply Calls_weaken with 0%nat; [lia|now apply Calls_same].
  - now apply (Calls_emit k (WriteFile path contents mode)).
Qed.

Lemma calls_existsSync u k path : calls u k 0 (existsSync path).
Proof. intros w _. now apply Calls_same. Qed.

Lemma calls_readFileSync u k path : calls u k 0 (readFileSync path).
Proof.
  intros w _. unfold readFileSync.
  destruct (fs w !! path) as [[c|e]|]; now apply Calls_same.
Qed.

Lemma calls_expired u k t : calls u k 0 (expired t).
Proof. intros w _. now apply Calls_same. Qed.

Lemma calls_isCi u k : calls u k 0 isCi.
Proof. intros w _. now apply Calls_same. Qed.

Lemma calls_refreshToken u k ap t :
  is_call k = true -> calls u k (refresh_calls k) (Auth.refreshToken ap t).
Proof.
  intros Hk. unfold Auth.refreshToken, log_info, refresh_calls.
  apply (calls_bind u k 0 (one k KDiscover + one k KRefresh));
    [now apply calls_log|intros _|lia].
  apply (calls_bind u k (one k KDiscover) (one k KRefresh));
    [apply calls_Issuer_discover|intros iss|lia].
  apply calls_client_refresh.
Qed.

Lemma calls_auth u k ap :
  is_call k = true -> calls u k (login_calls k) (Auth.auth ap).
Proof.
  intros Hk.
  unfold Auth.auth, log_info, login_calls, Auth.generators_state, Auth.generators_codeVerifier.
  apply (calls_bind u k 0 (one k KDiscover + (one k KListen + (one k KAuthorizationUrl + one k KOpenBrowser))));
    [now apply calls_log|intros _|lia].
  apply (calls_bind u k (one k KDiscover) (one k KListen + (one k KAuthorizationUrl + one k KOpenBrowser)));
    [apply calls_Issuer_discover|intros iss|lia].
  apply (calls_bind u k (one k KListen) (one k KAuthorizationUrl + one k KOpenBrowser));
    [apply calls_server_listen|intros port|lia].
  lazy zeta.
  apply (calls_bind u k 0 (one k KAuthorizationUrl + one k KOpenBrowser));
    [apply calls_generators_random|intros state|lia].
  apply (calls_bind u k 0 (one k KAuthorizationUrl + one k KOpenBrowser));
    [apply calls_generators_random|intros verifier|lia].
  apply (calls_bind u k (one k KAuthorizationUrl) (one k KOpenBrowser));
    [apply (calls_tell u k (AuthorizationUrl _ _))|intros _|lia].
  apply (calls_bind u k (one k KOpenBrowser) 0);
    [apply (calls_tell u k (OpenBrowser _))|intros _|lia].
  apply (calls_bind u k 0 0); [now apply calls_log|intros _|lia].
  now apply calls_await_callback.
Qed.

Lemma calls_preserveCredentials u k path t api :
  is_call k = true -> calls u k (save_calls k) (preserveCredentials path t api).
Proof.
  intros Hk. unfold preserveCredentials, log_info, log_debug, save_calls.
  apply (calls_bind u k (one k KGetCurrentUserInfo) (one k KWriteFile));
    [apply calls_getCurrentUserInfo|intros id|lia].
  lazy zeta.
  apply (calls_bind u k (one k KWriteFile) 0); [apply calls_writeFileSync|intros _|lia].
  apply (calls_bind u k 0 0); [now apply calls_log|intros _|lia].
  now apply calls_log.
Qed.

(** [authFlow] makes the calls of the login and of the saving, and in an
    unattended context without [forceAuth] none at all. *)
Lemma calls_authFlow u k props :
  is_call k = true -> calls u k (flow_calls u props k) (authFlow props).
Proof.
  intros Hk. unfold flow_calls.
  destruct (u && negb (forceAuth props)) eqn:Hrefuse.
  - apply andb_prop in Hrefuse as [-> Hforce]. intros w Hg.
    unfold authFlow, bind, isCi. rewrite Hforce, (Hg eq_refl). now apply Calls_same.
  - unfold authFlow, log_info.
    apply (calls_bind u k 0 (login_calls k + save_calls k)); [|intros unattended|lia].
    { destruct (negb (forceAuth props)); [apply calls_isCi|apply calls_ret]. }
    destruct unattended; [apply calls_weaken with 0%nat; [lia|apply calls_throw]|].
    apply (calls_bind u k (login_calls k) (save_calls k));
      [now apply calls_auth|intros tokenSet|lia].
    lazy zeta.
    apply (calls_bind u k (save_calls k) 0);
      [now apply calls_preserveCredentials|intros _|lia].
    apply (calls_bind u k 0 0); [now apply calls_log|intros _; apply calls_ret|lia].
Qed.

Lemma calls_handler u k props :
  is_call k = true -> calls u k (flow_calls u props k) (handler props).
Proof.
  intros Hk. unfold handler.
  apply (calls_bind u k (flow_calls u props k) 0);
    [now apply calls_authFlow|intros _; apply calls_ret|lia].
Qed.

Lemma calls_ensureAuth u k props :
  is_call k = true -> calls u k (ensureAuth_calls u props k) (ensureAuth props).
Proof.
  intros Hk. unfold ensureAuth, ensureAuth_calls.
  set (R := refresh_calls k). set (S := save_calls k). set (F := flow_calls u props k).
  assert (Hlogin : forall p0 : AuthProps,
            calls u k F (do key <- authFlow props; ret (with_apiClient (set_apiKey key p0)))).
  { intros p0. apply (calls_bind u k F 0);
      [now apply calls_authFlow|intros key; apply calls_ret|lia]. }
  destruct (_ || help props); [apply calls_weaken with 0%nat; [lia|apply calls_ret]|].
  destruct (_ || is_auth_command props).
  { apply (calls_bind u k 0 0); [|intros _; apply calls_ret|lia].
    destruct (Js.truthy (apiKey props)); [now apply calls_log|apply calls_ret]. }
  lazy zeta. unfold log_debug, log_error, log_info, parse_TokenSet.
  apply (calls_bind u k 0 (R + S + F)); [apply calls_existsSync|intros present|lia].
  destruct present.
  - apply (calls_bind u k 0 (R + S + F)); [now apply calls_log|intros _|lia].
    apply (calls_try_catch u k (R + S) F); [|intros e|lia].
    + apply (calls_bind u k 0 (R + S)); [apply calls_readFileSync|intros contents|lia].
      apply (calls_bind u k 0 (R + S)); [now apply calls_log|intros _|lia].
      apply (calls_bind u k 0 (R + S)); [apply calls_await|intros tokenSet|lia].
      apply (calls_bind u k 0 (R + S)); [apply calls_expired|intros isExpired|lia].
      destruct isExpired; [|apply calls_weaken with 0%nat; [lia|apply calls_ret]].
      apply (calls_bind u k 0 (R + S)); [now apply calls_log|intros _|lia].
      apply (calls_bind u k R S); [|intros refreshed|lia].
      * apply (calls_try_catch u k R 0); [now apply calls_refreshToken|intros err|lia].
        lazy zeta.
        apply (calls_bind u k 0 0); [now apply calls_log|intros _|lia].
        apply (calls_bind u k 0 0); [now apply calls_log|intros _; apply calls_throw|lia].
      * lazy zeta.
        apply (calls_bind u k S 0);
          [now apply calls_preserveCredentials|intros _; apply calls_ret|lia].
    + destruct (starts_auth_flow e); [apply Hlogin|].
      apply calls_weaken with 0%nat; [lia|apply calls_throw].
  - apply (calls_bind u k 0 F); [now apply calls_log|intros _; apply Hlogin|lia].
Qed.

(** X12. One invocation of [ensureAuth] opens the browser at most once and
    starts at most one listener, makes at most one refresh call, and at most
    two discoveries and two identity lookups (one for the refresh and one
    for the login it falls back to): nothing is retried.  The log only
    grows. *)
Theorem ensureAuth_at_most_one_login (props : AuthProps) (w : World) :
  exists new,
    events (snd (ensureAuth props w)) = new ++ events w /\
    (occurrences KOpenBrowser new <= 1)%nat /\
    (occurrences KListen new <= 1)%nat /\
    (occurrences KRefresh new <= 1)%nat /\
    (occurrences KDiscover new <= 2)%nat /\
    (occurrences KGetCurrentUserInfo new <= 2)%nat.
Proof.
  assert (H : forall k, is_call k = true ->
            exists new, events (snd (ensureAuth props w)) = new ++ events w /\
                        (occurrences k new <= ensureAuth_calls false props k)%nat).
  { intros k Hk. destruct (calls_ensureAuth false k props Hk w) as (_ & new & He & Hn);
      [discriminate|]. now exists new. }
  destruct (H KOpenBrowser eq_refl) as (new & He & Hopen). exists new.
  split; [exact He|].
  assert (Hsame : forall k n,
            (exists new', events (snd (ensureAuth props w)) = new' ++ events w /\
                          (occurrences k new' <= n)%nat) ->
            (occurrences k new <= n)%nat).
  { intros k n (new' & He' & Hn). rewrite He in He'.
    apply app_inv_tail in He'. now subst new'. }
  repeat split.
  - exact Hopen.
  - apply Hsame. apply (H KListen eq_refl).
  - apply Hsame. apply (H KRefresh eq_refl).
  - apply Hsame. apply (H KDiscover eq_refl).
  - apply Hsame. apply (H KGetCurrentUserInfo eq_refl).
Qed.

(** X13. In an unattended context and without [forceAuth], neither
    [ensureAuth] nor the handler ever starts a listener, asks for an
    authorization url or opens a browser, whatever the state of the
    credentials file and whatever the network answers. *)
Theorem unattended_never_interactive (props : AuthProps) (w : World) :
  forceAuth props = false ->
  ci w = true ->
  (exists new,
     events (snd (ensureAuth props w)) = new ++ events w /\
     occurrences KListen new = 0%nat /\
     occurrences KAuthorizationUrl new = 0%nat /\
     occurrences KOpenBrowser new = 0%nat) /\
  (exists new,
     events (snd (handler props w)) = new ++ events w /\
     occurrences KListen new = 0%nat /\
     occurrences KAuthorizationUrl new = 0%nat /\
     occurrences KOpenBrowser new = 0%nat).
Proof.
  intros Hforce Hci.
  assert (Hgen : forall {A} (m : M A) (bound : Kind -> nat),
            (forall k, is_call k = true -> calls true k (bound k) m) ->
            bound KListen = 0%nat -> bound KAuthorizationUrl = 0%nat ->
            bound KOpenBrowser = 0%nat ->
            exists new,
              events (snd (m w)) = new ++ events w /\
              occurrences KListen new = 0%nat /\
              occurrences KAuthorizationUrl new = 0%nat /\
              occurrences KOpenBrowser new = 0%nat).
  { intros A m bound Hm HL HA HO.
    destruct (Hm KListen eq_refl w (fun _ => Hci)) as (_ & new & He & HnL).
    destruct (Hm KAuthorizationUrl eq_refl w (fun _ => Hci)) as (_ & newA & HeA & HnA).
    destruct (Hm KOpenBrowser eq_refl w (fun _ => Hci)) as (_ & newO & HeO & HnO).
    rewrite He in HeA, HeO. apply app_inv_tail in HeA, HeO. subst newA newO.
    exists new. split; [exact He|]. lia. }
  split.
  - apply (Hgen _ (ensureAuth props) (ensureAuth_calls true props)).
    + intros k Hk. now apply calls_ensureAuth.
    + unfold ensureAuth_calls, flow_calls. now rewrite Hforce.
    + unfold ensureAuth_calls, flow_calls. now rewrite Hforce.
    + unfold ensureAuth_calls, flow_calls. now rewrite Hforce.
  - apply (Hgen _ (handler props) (flow_calls true props)).
    + intros k Hk. now apply calls_handler.
    + unfold flow_calls. now rewrite Hforce.
    + unfold flow_calls. now rewrite Hforce.
    + unfold flow_calls. now rewrite Hforce.
Qed.

End CallsOfARun.

(** * Further properties: the value of [ensureAuth], the answers of the
      loopback server, the redirect uri *)

Section ReturnedProps.
Context {P : Platform}.

Lemma returns_ret {A} (Q : A -> Prop) (a : A) : Q a -> returns_only Q (ret a).
Proof. intros Ha w a' [= <-]. exact Ha. Qed.

Lemma returns_throw {A} (Q : A -> Prop) (e : Js.error) : returns_only Q (throw e).
Proof. intros w a [=]. Qed.

Lemma returns_bind {A B} (Q : B -> Prop) (m : M A) (f : A -> M B) :
  (forall x, returns_only Q (f x)) -> returns_only Q (bind m f).
Proof.
  intros Hf w b. unfold bind. destruct (m w) as [[x|e|] w1]; [apply Hf|intros [=]..].
Qed.

Lemma returns_try_catch {A} (Q : A -> Prop) (m : M A) (h : Js.error -> M A) :
  returns_only Q m -> (forall e, returns_only Q (h e)) -> returns_only Q (try_catch m h).
Proof.
  intros Hm Hh w a. unfold try_catch. specialize (Hm w).
  destruct (m w) as [[x|e|] w1]; cbn [fst] in *; [apply Hm|apply Hh|intros [=]].
Qed.

(** X14. Whatever [ensureAuth] returns is the [props] it was given up to
    [apiKey] and [apiClient]; and when a command was given and help was not
    asked for, the API client it returns is the one made from the key it
    returns and from [apiHost]: the two never disagree. *)
Theorem ensureAuth_returns_consistent (props props' : AuthProps) (w : World) :
  fst (ensureAuth props w) = Returns props' ->
  same_settings props props' /\
  ((length (positional props) =? 0)%nat || help props = false ->
   client_matches_key props').
Proof.
  revert w props'.
  change (returns_only
            (fun p' => same_settings props p' /\
                       ((length (positional props) =? 0)%nat || help props = false ->
                        client_matches_key p'))
            (ensureAuth props)).
  assert (Hwith : forall key,
            same_settings props (with_apiClient (set_apiKey key props)) /\
            ((length (positional props) =? 0)%nat || help props = false ->
             client_matches_key (with_apiClient (set_apiKey key props)))).
  { intros key. split; [now repeat split|]. intros _. reflexivity. }
  assert (Hlogin : returns_only
            (fun p' => same_settings props p' /\
                       ((length (positional props) =? 0)%nat || help props = false ->
                        client_matches_key p'))
            (do key <- authFlow props; ret (with_apiClient (set_apiKey key props)))).
  { apply returns_bind. intros key. apply returns_ret, Hwith. }
  unfold ensureAuth.
  destruct (_ || help props) eqn:Hhelp.
  { apply returns_ret. split; [now repeat split|]. discriminate. }
  destruct (_ || is_auth_command props).
  { apply returns_bind. intros _. apply returns_ret. split; [now repeat split|].
    intros _. reflexivity. }
  lazy zeta. apply returns_bind. intros present. destruct present.
  - apply returns_bind. intros _. apply returns_try_catch.
    + do 4 (apply returns_bind; intros ?).
      match goal with |- returns_only _ (if ?b then _ else _) => destruct b end.
      * apply returns_bind. intros _. apply returns_bind. intros refreshed.
        lazy zeta. apply returns_bind. intros _. apply returns_ret, Hwith.
      * apply returns_ret, Hwith.
    + intros e. destruct (starts_auth_flow e); [exact Hlogin|apply returns_throw].
  - apply returns_bind. intros _. exact Hlogin.
Qed.

End ReturnedProps.

Section Answers.
Context {P : Platform}.

Lemma responded_app (a b : list Event) :
  responded (a ++ b) = responded a ++ responded b.
Proof.
  induction a as [|ev a IH]; [reflexivity|].
  destruct ev; cbn; now rewrite ?IH.
Qed.

Lemma answers_once_step c port checks ev s done :
  answers_once s done ->
  answers_once (fst (Auth.on_event c port checks ev s))
               (done ++ responded (snd (Auth.on_event c port checks ev s))).
Proof.
  intros Hinv. pose proof Hinv as (Hnd & Hlt & Hdone & Hold). unfold answers_once in *.
  assert (Hfresh : ~ In (Auth.accepted s) (Auth.awaiting s)).
  { intros Hr. specialize (Hlt _ Hr). lia. }
  assert (Hsnoc : forall (l : list nat) x, NoDup l -> ~ In x l -> NoDup (l ++ [x])).
  { intros l x Hl Hx. apply NoDup_app. split; [exact Hl|]. split; [|apply NoDup_singleton].
    intros r Hr Hr'. apply list_elem_of_In in Hr. apply list_elem_of_singleton in Hr'.
    now subst r. }
  destruct ev as [request|req reply]; cbn [Auth.on_event].
  - unfold Auth.on_request. destruct (Auth.exited s).
    { cbn [fst snd responded]. now rewrite app_nil_r. }
    destruct (Auth.not_callback (url request)).
    { cbn [fst snd responded Auth.awaiting Auth.accepted].
      split; [exact Hnd|]. split; [intros r Hr; specialize (Hlt r Hr); lia|].
      split.
      - apply Hsnoc; [exact Hdone|]. intros Hr. destruct (Hold _ Hr). lia.
      - intros r Hr. apply in_app_or in Hr as [Hr|[<-|[]]].
        + destruct (Hold r Hr). split; [lia|assumption].
        + split; [lia|exact Hfresh]. }
    lazy zeta. destruct (client_callbackParams request) as [e|params];
      cbn [fst snd responded Auth.awaiting Auth.accepted]; rewrite app_nil_r.
    + split; [exact Hnd|]. split; [intros r Hr; specialize (Hlt r Hr); lia|].
      split; [exact Hdone|]. intros r Hr. destruct (Hold r Hr). split; [lia|assumption].
    + split; [now apply Hsnoc|]. split.
      { intros r Hr. apply in_app_or in Hr as [Hr|[<-|[]]]; [specialize (Hlt r Hr)|]; lia. }
      split; [exact Hdone|]. intros r Hr. destruct (Hold r Hr) as [Hacc Hnot].
      split; [lia|]. intros Hr'. apply in_app_or in Hr' as [Hr'|[<-|[]]]; [now apply Hnot|lia].
  - unfold Auth.on_exchanged.
    destruct (Auth.exited s); cbn [orb].
    { cbn [fst snd responded]. now rewrite app_nil_r. }
    destruct (existsb (Nat.eqb req) (Auth.awaiting s)) eqn:Hin; cbn [negb].
    2:{ cbn [fst snd responded]. now rewrite app_nil_r. }
    apply existsb_exists in Hin as (r0 & Hr0 & Heq). apply Nat.eqb_eq in Heq. subst r0.
    assert (Hrest : forall r,
              In r (List.filter (fun r => negb (Nat.eqb req r)) (Auth.awaiting s)) ->
              In r (Auth.awaiting s) /\ r <> req).
    { intros r Hr. apply filter_In in Hr as [Hr Hne]. split; [exact Hr|].
      apply negb_true_iff, Nat.eqb_neq in Hne. congruence. }
    assert (Hndrest : NoDup (List.filter (fun r => negb (Nat.eqb req r)) (Auth.awaiting s))).
    { apply NoDup_ListNoDup, List.NoDup_filter, NoDup_ListNoDup, Hnd. }
    lazy zeta. destruct reply as [e|tokenSet];
      cbn [fst snd responded Auth.awaiting Auth.accepted].
    + rewrite app_nil_r. split; [exact Hndrest|].
      split; [intros r Hr; apply Hlt; now apply Hrest|].
      split; [exact Hdone|]. intros r Hr. destruct (Hold r Hr) as [Hacc Hnot].
      split; [exact Hacc|]. intros Hr'. apply Hnot. now apply Hrest.
    + split; [exact Hndrest|].
      split; [intros r Hr; apply Hlt; now apply Hrest|].
      split.
      * apply Hsnoc; [exact Hdone|]. intros Hr. now destruct (Hold req Hr).
      * intros r Hr. apply in_app_or in Hr as [Hr|[<-|[]]].
        -- destruct (Hold r Hr) as [Hacc Hnot]. split; [exact Hacc|].
           intros Hr'. apply Hnot. now apply Hrest.
        -- split; [now apply Hlt|]. intros Hr'. apply Hrest in Hr' as [_ Hne]. congruence.
Qed.

Lemma answers_once_serve c port checks evs : forall s done,
  answers_once s done ->
  answers_once (fst (Auth.serve c port checks evs s))
               (done ++ responded (snd (Auth.serve c port checks evs s))).
Proof.
  induction evs as [|ev evs IH]; intros s done Hinv.
  - cbn. now rewrite app_nil_r.
  - pose proof (answers_once_step c port checks ev s done Hinv) as Hstep.
    cbn [Auth.serve]. destruct (Auth.on_event c port checks ev s) as [s1 out1].
    cbn [fst snd] in Hstep. specialize (IH s1 _ Hstep).
    destruct (Auth.serve c port checks evs s1) as [s2 out2]. cbn [fst snd] in *.
    now rewrite responded_app, app_assoc.
Qed.

(** X15. The loopback server writes at most one response per request,
    whatever arrives and in whatever order the exchanges settle; and it
    answers only requests it has accepted. *)
Theorem serve_answers_once (c : Client) (port : N) (checks : CallbackChecks)
    (evs : list ServerEvent) :
  NoDup (responded (snd (Auth.serve c port checks evs Auth.started))) /\
  forall r, In r (responded (snd (Auth.serve c port checks evs Auth.started))) ->
            (r < Auth.accepted (fst (Auth.serve c port checks evs Auth.started)))%nat.
Proof.
  destruct (answers_once_serve c port checks evs Auth.started []) as (_ & _ & Hnd & Hacc).
  { split; [apply NoDup_nil_2|]. split; [intros r0 []|].
    split; [apply NoDup_nil_2|intros r0 []]. }
  cbn [app] in *. split; [exact Hnd|]. intros r Hr. now destruct (Hacc r Hr).
Qed.

End Answers.

Section RedirectUri.

Lemma length_append (a b : string) :
  String.length (a +:+ b) = (String.length a + String.length b)%nat.
Proof. induction a as [|c a IH]; simpl; [reflexivity|now rewrite IH]. Qed.

Lemma append_cancel_r (s a b : string) : a +:+ s = b +:+ s -> a = b.
Proof.
  revert b. induction a as [|c a IH]; intros [|d b] H; simpl in H.
  - reflexivity.
  - apply (f_equal String.length) in H. simpl in H. rewrite ?length_append in H. simpl in H. lia.
  - apply (f_equal String.length) in H. simpl in H. rewrite ?length_append in H. simpl in H. lia.
  - injection H as -> H. f_equal. now apply IH.
Qed.

Lemma decimal_inj (n m : N) : decimal n = decimal m -> n = m.
Proof.
  unfold decimal. intros H.
  apply (f_equal NilZero.uint_of_string) in H.
  rewrite !NilZero.usu in H.
  - injection H as H. now apply DecimalN.Unsigned.to_uint_inj.
  - destruct m; [discriminate|apply DecimalPos.Unsigned.to_uint_nonnil].
  - destruct n; [discriminate|apply DecimalPos.Unsigned.to_uint_nonnil].
Qed.

(** X16. Listeners on different ports have different redirect uris. *)
Theorem REDIRECT_URI_inj (port port' : N) :
  Auth.REDIRECT_URI port = Auth.REDIRECT_URI port' -> port = port'.
Proof.
  unfold Auth.REDIRECT_URI. intros H.
  apply decimal_inj, (append_cancel_r "/callback").
  now injection H.
Qed.

End RedirectUri.

(** * Further properties: the alias of the command *)

Section Alias.
Context {P : Platform}.

(** X17. [ensureAuth] exempts the command by its name [auth] only.  When the
    first positional argument is an alias of the command ([login]), no key
    is given and there is no credentials file, [ensureAuth] runs the
    authentication flow itself, as for any other command. *)
Theorem ensureAuth_alias_starts_login (props : AuthProps) (w : World)
    (alias : string) (rest : list Js.val) :
  In alias aliases ->
  positional props = Js.VStr alias :: rest ->
  help props = false ->
  Js.truthy (apiKey props) = false ->
  fs w !! credentialsPath props = None ->
  ensureAuth props w
  = login_then_continue props
      (emit (Log LDebug "Credentials file %s does not exist, starting authentication"
               [Js.VStr (credentialsPath props)]) w).
Proof.
  intros Halias Hpos Hhelp Htok Hfs.
  assert (Hu : uses_credentials_file props = true).
  { destruct Halias as [<-|[]]. unfold uses_credentials_file, is_auth_command.
    now rewrite Hpos, Hhelp, Htok. }
  file_logic Hu. run_with ltac:(rewrite ?Hfs). reflexivity.
Qed.

End Alias.

(** * Further properties on the mock platform *)

Section OnTheMock.
#[local] Existing Instance Mock.platform.

(** An explicit key: the expired credential on disk is never looked at. *)
Lemma ensureAuth_without_credentials_witness :
  exists props' w',
    ensureAuth Mock.keyed_props Mock.expired_world = (Returns props', w') /\
    apiKey props' = apiKey Mock.keyed_props /\
    fs w' = fs Mock.expired_world /\
    discover_replies w' = discover_replies Mock.expired_world /\
    refresh_replies w' = refresh_replies Mock.expired_world /\
    identity_replies w' = identity_replies Mock.expired_world /\
    inbound w' = inbound Mock.expired_world /\
    drawn w' = drawn Mock.expired_world /\
    (events w' = events Mock.expired_world \/
     events w' = Log LDebug "using an API key to authorize requests" []
                 :: events Mock.expired_world) /\
    ((length (positional Mock.keyed_props) =? 0)%nat || help Mock.keyed_props = false ->
       apiClient props'
       = Some (getApiClient (apiKey Mock.keyed_props) (apiHost Mock.keyed_props))).
Proof.
  exact (ensureAuth_without_credentials Mock.keyed_props Mock.expired_world eq_refl).
Defined.

(** The read of the credentials file fails with an error that quotes the sentinel. *)
Lemma ensureAuth_sentinel_in_message_witness :
  let w := Mock.with_file Mock.credentialsPath (Unreadable Mock.quoting_SyntaxError)
             Mock.quiet in
  ensureAuth Mock.props w
  = login_then_continue Mock.props
      (emit (Log LDebug "Trying to read credentials from %s"
               [Js.VStr (credentialsPath Mock.props)]) w).
Proof.
  intros w.
  refine (proj1 (ensureAuth_sentinel_in_message Mock.props w Mock.quoting_SyntaxError
                   eq_refl eq_refl eq_refl) _).
  vm_compute. reflexivity.
Defined.

Lemma handler_after_ensureAuth_witness :
  (do props' <- ensureAuth Mock.auth_props; handler props') Mock.login_world
  = handler Mock.auth_props Mock.login_world.
Proof.
  exact (handler_after_ensureAuth Mock.auth_props Mock.login_world eq_refl eq_refl eq_refl).
Defined.

Lemma auth_discovery_failure_witness :
  let w := Mock.browser_returns Mock.refreshed
             (set_discover_replies [inl Mock.ECONNREFUSED] Mock.quiet) in
  fst (Auth.auth (authProps Mock.props) w) = Throws Mock.ECONNREFUSED /\
  events (snd (Auth.auth (authProps Mock.props) w))
  = [Discover (Auth.oauthHost (authProps Mock.props));
     Log LInfo "Discovering oauth server" []] ++ events w /\
  drawn (snd (Auth.auth (authProps Mock.props) w)) = drawn w /\
  inbound (snd (Auth.auth (authProps Mock.props) w)) = inbound w.
Proof.
  intros w.
  exact (auth_discovery_failure (authProps Mock.props) w Mock.ECONNREFUSED [] eq_refl).
Defined.

Lemma auth_returns_exchanged_witness :
  exists iss q pre request u mid req post,
    discover_replies Mock.login_world = inr iss :: q /\
    inbound Mock.login_world
    = pre ++ Request request :: mid ++ Exchanged req (inr Mock.refreshed) :: post /\
    url request = Some u /\
    Js.startsWith "/callback" u = true /\
    req = Auth.accepted
            (server_after
               (auth_client (authProps Mock.props) iss (ephemeral_port Mock.login_world))
               (ephemeral_port Mock.login_world)
               {| check_code_verifier :=
                    random Mock.login_world (S (drawn Mock.login_world));
                  check_state := random Mock.login_world (drawn Mock.login_world) |} pre) /\
    In (Respond req 200 [("Content-Type", "text/html")] (Some callback_html))
       (events (snd (Auth.auth (authProps Mock.props) Mock.login_world))) /\
    In (Resolve Mock.refreshed)
       (events (snd (Auth.auth (authProps Mock.props) Mock.login_world))) /\
    In ServerClose (events (snd (Auth.auth (authProps Mock.props) Mock.login_world))).
Proof.
  refine (auth_returns_exchanged (authProps Mock.props) Mock.login_world Mock.refreshed _).
  vm_compute. reflexivity.
Defined.

Lemma auth_redirect_uri_witness :
  exists new,
    events (snd (Auth.auth (authProps Mock.props) Mock.login_world))
    = new ++ events Mock.login_world /\
    In (Listen (ephemeral_port Mock.login_world)) new /\
    forall ev, In ev new ->
      match ev with
      | Listen port => port = ephemeral_port Mock.login_world
      | AuthorizationUrl c _ =>
          redirect_uris (client_metadata c)
          = Some [Auth.REDIRECT_URI (ephemeral_port Mock.login_world)]
      | CallbackExchange _ c uri _ _ =>
          uri = Auth.REDIRECT_URI (ephemeral_port Mock.login_world) /\
          redirect_uris (client_metadata c) = Some [uri]
      | _ => True
      end.
Proof.
  exact (auth_redirect_uri (authProps Mock.props) Mock.login_world Mock.issuer [] eq_refl).
Defined.

Lemma refreshToken_discovery_failure_witness :
  let w := set_refresh_replies [inr Mock.refreshed]
             (set_discover_replies [inl Mock.ECONNREFUSED] Mock.quiet) in
  fst (Auth.refreshToken (authProps Mock.props) Mock.stale w) = Throws Mock.ECONNREFUSED /\
  refresh_replies (snd (Auth.refreshToken (authProps Mock.props) Mock.stale w))
  = refresh_replies w /\
  events (snd (Auth.refreshToken (authProps Mock.props) Mock.stale w))
  = [Discover (Auth.oauthHost (authProps Mock.props));
     Log LInfo "Discovering oauth server" []] ++ events w.
Proof.
  intros w.
  exact (refreshToken_discovery_failure (authProps Mock.props) Mock.stale w
           Mock.ECONNREFUSED [] eq_refl).
Defined.

Lemma authFlow_saves_login_witness :
  let w := set_identity_replies [inr "u1"] Mock.login_world in
  let w1 := snd (Auth.auth (authProps Mock.props) w) in
  fst (authFlow Mock.props w) = Returns (Js.or (access_token Mock.refreshed) (Js.VStr "")) /\
  fs (snd (authFlow Mock.props w))
  = <[credentialsPath Mock.props := Readable (stored_credential Mock.refreshed "u1")]> (fs w) /\
  events (snd (authFlow Mock.props w))
  = [Log LInfo "Auth complete" [];
     Log LDebug "Credentials MD5 hash: %s"
       [Js.VStr (md5hash (stored_credential Mock.refreshed "u1"))];
     Log LInfo "Saved credentials to %s" [Js.VStr (credentialsPath Mock.props)];
     WriteFile (credentialsPath Mock.props) (stored_credential Mock.refreshed "u1") 448;
     GetCurrentUserInfo
       (getApiClient (Js.or (access_token Mock.refreshed) (Js.VStr "")) (apiHost Mock.props))]
    ++ events w1.
Proof.
  intros w w1.
  refine (authFlow_saves_login Mock.props w w1 Mock.refreshed "u1" [] eq_refl _ eq_refl eq_refl).
  vm_compute. reflexivity.
Defined.

Lemma authFlow_login_not_saved_witness :
  (let w := set_identity_replies [inl Mock.Unauthorized] Mock.login_world in
   let w1 := snd (Auth.auth (authProps Mock.props) w) in
   fst (authFlow Mock.props w) = Throws Mock.Unauthorized /\
   fs (snd (authFlow Mock.props w)) = fs w /\
   events (snd (authFlow Mock.props w))
   = GetCurrentUserInfo
       (getApiClient (Js.or (access_token Mock.refreshed) (Js.VStr "")) (apiHost Mock.props))
     :: events w1)
  /\
  (let w := mkWorld (fs Mock.login_world) (fun _ => Some Mock.EACCES) (now Mock.login_world)
              false (discover_replies Mock.login_world) [] [inr "u1"]
              (random Mock.login_world) 0 (ephemeral_port Mock.login_world)
              (inbound Mock.login_world) [] in
   let w1 := snd (Auth.auth (authProps Mock.props) w) in
   fst (authFlow Mock.props w) = Throws Mock.EACCES /\
   exists new,
     events (snd (authFlow Mock.props w)) = new ++ events w1 /\
     forall l fmt args, ~ In (Log l fmt args) new).
Proof.
  split.
  - intros w w1.
    refine (proj1 (authFlow_login_not_saved Mock.props w w1 Mock.refreshed Mock.Unauthorized
                     eq_refl _) (ex_intro _ [] eq_refl)).
    vm_compute. reflexivity.
  - intros w w1.
    refine (proj2 (authFlow_login_not_saved Mock.props w w1 Mock.refreshed Mock.EACCES
                     eq_refl _)
              (ex_intro _ "u1" (ex_intro _ [] (conj eq_refl eq_refl)))).
    vm_compute. reflexivity.
Defined.

(** The credential saved in one run is found by a later run in [Mock.quiet]. *)
Lemma saved_credentials_are_reused_witness :
  let api := getApiClient (Js.VStr "tok1") (apiHost Mock.props) in
  let w := set_identity_replies [inr "u1"] Mock.quiet in
  let w2 := set_fs (fs (snd (preserveCredentials (credentialsPath Mock.props)
                               Mock.refreshed api w))) Mock.quiet in
  ensureAuth Mock.props w2
  = (Returns (with_apiClient
                (set_apiKey (Js.or (access_token Mock.refreshed) (Js.VStr "UNKNOWN"))
                   Mock.props)),
     after_read Mock.props (stored_credential Mock.refreshed "u1") w2).
Proof.
  intros api w w2.
  refine (saved_credentials_are_reused Mock.props w w2 Mock.refreshed api "u1" []
            eq_refl eq_refl eq_refl eq_refl _ _).
  - vm_compute. reflexivity.
  - vm_compute. reflexivity.
Defined.

Lemma authFlow_forced_ignores_ci_witness :
  authFlow Mock.forced_props (set_ci true Mock.login_world)
  = (fst (authFlow Mock.forced_props Mock.login_world),
     set_ci true (snd (authFlow Mock.forced_props Mock.login_world))).
Proof.
  exact (authFlow_forced_ignores_ci Mock.forced_props true Mock.login_world eq_refl).
Defined.

(** Unattended, with a credential that has expired and a refresh that is refused. *)
Lemma unattended_never_interactive_witness :
  let w := Mock.unattended Mock.refresh_refused in
  (exists new,
     events (snd (ensureAuth Mock.props w)) = new ++ events w /\
     occurrences KListen new = 0%nat /\
     occurrences KAuthorizationUrl new = 0%nat /\
     occurrences KOpenBrowser new = 0%nat) /\
  (exists new,
     events (snd (handler Mock.props w)) = new ++ events w /\
     occurrences KListen new = 0%nat /\
     occurrences KAuthorizationUrl new = 0%nat /\
     occurrences KOpenBrowser new = 0%nat).
Proof.
  intros w.
  exact (unattended_never_interactive Mock.props w eq_refl eq_refl).
Defined.

Lemma ensureAuth_returns_consistent_witness :
  let props' := with_apiClient (set_apiKey (Js.VStr "tok1") Mock.props) in
  same_settings Mock.props props' /\
  ((length (positional Mock.props) =? 0)%nat || help Mock.props = false ->
   client_matches_key props').
Proof.
  intros props'.
  refine (ensureAuth_returns_consistent Mock.props props' Mock.refresh_granted _).
  vm_compute. reflexivity.
Defined.

Lemma REDIRECT_URI_inj_witness :
  Auth.REDIRECT_URI 40123 = "http://127.0.0.1:40123/callback" /\ (40123 = 40123)%N.
Proof.
  split; [reflexivity|].
  exact (REDIRECT_URI_inj 40123 40123 eq_refl).
Defined.

(** [neonctl login] without a credentials file. *)
Lemma ensureAuth_alias_starts_login_witness :
  ensureAuth Mock.login_props Mock.login_world
  = login_then_continue Mock.login_props
      (emit (Log LDebug "Credentials file %s does not exist, starting authentication"
               [Js.VStr (credentialsPath Mock.login_props)]) Mock.login_world).
Proof.
  refine (ensureAuth_alias_starts_login Mock.login_props Mock.login_world "login" []
            (or_introl eq_refl) eq_refl eq_refl eq_refl _).
  vm_compute. reflexivity.
Defined.

End OnTheMock.
